(** * open-r1: agent-trace generation harness and reward scorers

    A shallow embedding of [scripts/generate_agent_traces.py] (the retrying
    request executor, the per-item fan-out, the startup scan of the output
    store and the bounded scheduling loop of [main]) and of the reward scorers
    exercised by [tests/test_rewards.py].

    Conventions.
    - Python values that travel through the script (dataset rows, agent
      transcripts, parsed JSON bodies) are the JSON-shaped fragment [value].
    - The strings of a [value] are well-formed Unicode, as those of the
      rows of a loaded dataset are: [str(...).encode()] succeeds on them.
      A line of the output file is arbitrary text; what its parse can hold
      beyond that is [Store.Garbled].
    - Python floats are idealised as rationals ([Q]); durations are seconds.
    - Library calls whose result the script cannot influence (the HTTP
      exchange, the agent framework, the random generator, [hashlib.md5],
      [str]) are inputs of the model: an oracle argument or a section
      variable. *)

From Stdlib Require Import ZArith QArith Qminmax Qabs Lia Lqa Ascii String.
From stdpp Require Import gmap strings list pretty.

Set Warnings "-register-all,-clear-no-such-hyp".
Local Open Scope string_scope.
Local Open Scope list_scope.

(** ** Python values *)

Inductive value :=
| VNone
| VBool (b : bool)
| VInt (n : Z)
| VFloat (x : Q)
| VStr (s : string)
| VList (xs : list value)
| VDict (items : list (string * value)).

(** A [dict] keeps its items in insertion order; every key occurs once. *)
Definition dict := list (string * value).

Fixpoint dict_get (d : dict) (k : string) : option value :=
  match d with
  | [] => None
  | (k', v) :: d' => if decide (k' = k) then Some v else dict_get d' k
  end.

(** [d[k] = v]: an existing key keeps its position, a new key goes last. *)
Fixpoint dict_set (d : dict) (k : string) (v : value) : dict :=
  match d with
  | [] => [(k, v)]
  | (k', v') :: d' =>
      if decide (k' = k) then (k, v) :: d' else (k', v') :: dict_set d' k v
  end.

(** Exceptions of class [Exception], with the text [str(e)] prints. *)
Record exn := Exn { exn_class : string; exn_text : string }.

(** The namespace [parser.parse_args()] returns. *)
Record args := {
  output_file_path : string;
  prompt_column : string;
  uuid_column : string;
  api_addr : string;
  num_generations : Z;
  temperature : Q;
  top_p : Q;
  max_tokens : Z;
  max_concurrent : Z
}.

(** ** The retrying request executor *)

Module Executor.

Record request := {
  url : string;
  authorization : string;
  model : string;
  messages : value;
  req_max_tokens : Z;
  req_temperature : Q;
  req_top_p : Q
}.

(** What one [session.post ... response.json(content_type=None)] exchange
    does: the post raises, or a response with some status arrives and
    [response.json] either raises on its body or returns the parsed body.
    The session is created without [raise_for_status], so the status is
    never looked at. *)
Inductive exchange :=
| PostRaises (e : exn)
| BodyNotJson (status : Z) (e : exn)
| BodyJson (status : Z) (body : value).

(** One iteration's inputs: the draw of [random.random()] behind
    [random.uniform] and the outcome of the exchange. *)
Record attempt := { rnd : Q; reply : exchange }.

Inductive event :=
| Sleep (seconds : Q)
| Post (r : request)
| Print (text : string).

(** [random.uniform(a, b)] is [a + (b - a) * random()]. *)
Definition uniform (a b u : Q) : Q := a + (b - a) * u.

Definition jitter (at_ : attempt) : Q := uniform 0 (1 # 10) (rnd at_).

Definition make_request (a : args) (msgs : value) : request :=
  {| url := "http://" +:+ api_addr a +:+ "/v1/chat/completions";
     authorization := "Bearer EMPTY";
     model := "default";
     messages := msgs;
     req_max_tokens := max_tokens a;
     req_temperature := temperature a;
     req_top_p := top_p a |}.

Definition raised (x : exchange) : option exn :=
  match x with
  | PostRaises e | BodyNotJson _ e => Some e
  | BodyJson _ _ => None
  end.

(** The [while retry_budget > 0] loop; [i] counts the iterations done so
    far and selects the oracle's answer. The budget only moves in the
    [except] branch, so it is the structural argument. *)
Fixpoint retry_loop (a : args) (msgs : value) (env : nat → attempt)
    (retry_budget i : nat) : value * list event :=
  match retry_budget with
  | O => (VNone, [])
  | S budget' =>
      let try_ := [Sleep (jitter (env i)); Post (make_request a msgs)] in
      match reply (env i) with
      | BodyJson _ body => (body, try_)
      | PostRaises e | BodyNotJson _ e =>
          let '(r, tr) := retry_loop a msgs env budget' (S i) in
          (r, try_ ++ [Print ("API error (will retry): " +:+ exn_text e);
                       Sleep 10] ++ tr)
      end
  end.

Definition generate_completion_from_messages
    (a : args) (msgs : value) (env : nat → attempt) : value * list event :=
  retry_loop a msgs env 10 0.

(** What iteration [i] leaves in the trace when its exchange raises. *)
Definition failed_attempt (a : args) (msgs : value) (env : nat → attempt)
    (i : nat) : list event :=
  match raised (reply (env i)) with
  | Some e =>
      [Sleep (jitter (env i)); Post (make_request a msgs);
       Print ("API error (will retry): " +:+ exn_text e); Sleep 10]
  | None => []
  end.

Definition is_Print (ev : event) : bool :=
  match ev with Print _ => true | _ => false end.

Definition is_Post (ev : event) : bool :=
  match ev with Post _ => true | _ => false end.

End Executor.

(** Outcome of a call that may raise. *)
Inductive result (A : Type) :=
| Ok (x : A)
| Raise (e : exn).
Arguments Ok {A} x.
Arguments Raise {A} e.

(** [hashlib.md5(str(v).encode()).hexdigest()] is built from two library
    functions the script does not define. *)
Class Builtins := {
  py_str : value → string;
  md5_hexdigest : string → string
}.

Definition newline : string := String (Ascii.ascii_of_nat 10) EmptyString.

(** ** The output store *)

Module Store.

(** A line of the output file, by what the body of the [try] at lines
    144-145 does with it.
    - [Unparsable text]: [json.loads] rejects the text with
      [JSONDecodeError].
    - [Unloadable e]: reading the line or [json.loads] raises [e], another
      exception ([UnicodeDecodeError] for bytes that are not UTF-8,
      [ValueError] for an integer literal beyond the digit limit of [int],
      [RecursionError] for nesting beyond the recursion limit).
    - [Parsed data]: [json.loads] returns [data], a value all of whose
      strings are well-formed Unicode, as the rows of a dataset are. A
      record written by [json.dumps] on a line of its own parses back to
      itself.
    - [Garbled cells]: [json.loads] returns an object some of whose values
      have no digest. Under a column, [Ok v] is a value as above and
      [Raise e] is one on which [str(...).encode()] raises [e]:
      [UnicodeEncodeError] for a str with a lone surrogate, which a JSON
      text spells with an escape and no [value] holds. *)
Inductive line :=
| Unparsable (text : string)
| Unloadable (e : exn)
| Parsed (data : value)
| Garbled (cells : list (string * result value)).

Fixpoint cell_get (cells : list (string * result value)) (k : string)
    : option (result value) :=
  match cells with
  | [] => None
  | (k', c) :: cells' => if decide (k' = k) then Some c else cell_get cells' k
  end.

(** [data[k]] for a string [k]: a [dict] looks the key up, every other
    value refuses a string subscript. *)
Definition subscript (data : value) (k : string) : result value :=
  match data with
  | VDict d =>
      match dict_get d k with
      | Some v => Ok v
      | None => Raise (Exn "KeyError" k)
      end
  | VList _ => Raise (Exn "TypeError" "list indices must be integers or slices, not str")
  | VStr _ => Raise (Exn "TypeError" "string indices must be integers")
  | VNone | VBool _ | VInt _ | VFloat _ =>
    Raise (Exn "TypeError" "object is not subscriptable")
  end.

Section Scan.
Context {builtins : Builtins}.

Definition uuid_of (v : value) : string := md5_hexdigest (py_str v).

(** The body of the [try]: [json.loads(line)], then the digest of
    [data[uuid_column]]; the result is the member [add] receives. *)
Definition line_uuid (uuid_column : string) (l : line) : result string :=
  match l with
  | Unparsable text => Raise (Exn "JSONDecodeError" text)
  | Unloadable e => Raise e
  | Parsed data =>
      match subscript data uuid_column with
      | Ok v => Ok (uuid_of v)
      | Raise e => Raise e
      end
  | Garbled cells =>
      match cell_get cells uuid_column with
      | Some (Ok v) => Ok (uuid_of v)
      | Some (Raise e) => Raise e
      | None => Raise (Exn "KeyError" uuid_column)
      end
  end.

(** [except json.JSONDecodeError]: the one class the handler names. *)
Definition is_JSONDecodeError (e : exn) : bool :=
  bool_decide (exn_class e = "JSONDecodeError").

(** The body of [async for line in f]: a [JSONDecodeError] is caught and
    the line passed over; every other exception leaves the function. *)
Fixpoint scan (uuid_column : string) (lines : list line)
    (processed_uuids : gset string) : result (gset string) :=
  match lines with
  | [] => Ok processed_uuids
  | l :: rest =>
      match line_uuid uuid_column l with
      | Ok uuid => scan uuid_column rest ({[uuid]} ∪ processed_uuids)
      | Raise e =>
          if is_JSONDecodeError e then scan uuid_column rest processed_uuids
          else Raise e
      end
  end.

(** [output_file] is [None] when [os.path.exists] is false. *)
Definition load_processed_uuids (output_file : option (list line))
    (uuid_column : string) : result (gset string) :=
  match output_file with
  | None => Ok ∅
  | Some lines => scan uuid_column lines ∅
  end.
End Scan.

(** The key a parsed record carries in [uuid_column], if any. *)
Definition key_of_line (uuid_column : string) (l : line) : option value :=
  match l with
  | Parsed (VDict d) => dict_get d uuid_column
  | Garbled cells =>
      match cell_get cells uuid_column with
      | Some (Ok v) => Some v
      | _ => None
      end
  | _ => None
  end.

(** The keys present in a store, in file order, with repetitions. *)
Definition store_keys (uuid_column : string) (lines : list line) : list value :=
  omap (key_of_line uuid_column) lines.

(** The file as it lies on disk. [whole] holds the lines that end with a
    newline. [torn] is the text after the last newline, when there is
    some: [(alone, glued)] tells how that unfinished line reads as it is,
    and how it reads once a record and a newline have been written right
    behind it ([glued record]; the write at lines 124-125 opens the file
    in mode [a] and does not look at its last byte). *)
Record disk := {
  whole : list line;
  torn : option (line * (value → line))
}.

(** The lines [async for line in f] yields. *)
Definition read (d : disk) : list line :=
  whole d ++ match torn d with Some (alone, _) => [alone] | None => [] end.

(** [f.write(json.dumps(record) + newline)] in mode [a]. *)
Definition write (d : disk) (record : value) : disk :=
  match torn d with
  | None => {| whole := whole d ++ [Parsed record]; torn := None |}
  | Some (_, glued) => {| whole := whole d ++ [glued record]; torn := None |}
  end.

(** A file that does not exist is created empty before the loop (lines
    175-177). *)
Definition on_disk (file : option disk) : disk :=
  default {| whole := []; torn := None |} file.

End Store.

(** ** Per-item processing *)

Module Item.
Import Store.

(** What the agent framework does in one [get_agent_run]: building the
    [CodeAgent] raises (outside the [try]), or [agent.run] /
    [write_memory_to_messages] raises (inside it), or the run ends and the
    memory is returned as a list of messages. *)
Inductive agent_run :=
| AgentInitRaises (e : exn)
| AgentRunRaises (e : exn)
| AgentRunOk (memory : list value).

Definition get_agent_run (b : agent_run) : result value :=
  match b with
  | AgentInitRaises e => Raise e
  | AgentRunRaises _ => Ok VNone
  | AgentRunOk memory => Ok (VList memory)
  end.

(** [await asyncio.gather] over the runs: the results in order, or an exception
    if one of the awaitables raised. *)
Fixpoint gather (rs : list (result value)) : result (list value) :=
  match rs with
  | [] => Ok []
  | Raise e :: _ => Raise e
  | Ok v :: rs' =>
      match gather rs' with
      | Ok vs => Ok (v :: vs)
      | Raise e => Raise e
      end
  end.

Definition is_None (v : value) : bool :=
  match v with VNone => true | _ => false end.

(** What [get_agent_run] hands back when it returns. *)
Definition payload (b : agent_run) : value :=
  match b with AgentRunOk memory => VList memory | _ => VNone end.

Section Process.
Context {builtins : Builtins}.

Definition make_prompt (task : value) : string :=
  "Here is a task to solve using a function: " +:+ py_str task +:+
  newline +:+ newline +:+
  "Now write a function that solves the problem, test it and return it using final_answer(your_function).".

(** The original fields of [example], then the three lists under
    generations, finish_reasons and api_metadata (a field of [example]
    with one of these names is overwritten). *)
Definition make_result (example : dict) (agent_runs : list value) : dict :=
  let generations := VList agent_runs in
  let finish_reasons := VList (map (λ _, VNone) agent_runs) in
  let api_metadata := VList (map (λ _, VNone) agent_runs) in
  dict_set (dict_set (dict_set example
    "generations" generations)
    "finish_reasons" finish_reasons)
    "api_metadata" api_metadata.

(** [agents prompt i] is what the framework does in the [i]-th of the
    [num_generations] runs. The return value is [Ok None] on the two
    error paths, [Ok (Some result)] after the append; the first line of
    the function sits outside the [try], so a missing prompt column
    raises. The second component is the output file afterwards: what it
    held, followed by the record and its newline. Where the file did not
    end with a newline, a later read finds the record on the line of the
    old last one: that is [Store.write]. *)
Definition process_example (a : args) (example : dict)
    (agents : string → nat → agent_run) (output_file : list line)
    : result (option dict) * list line :=
  match subscript (VDict example) (prompt_column a) with
  | Raise e => (Raise e, output_file)
  | Ok task =>
      let prompt := make_prompt task in
      let tasks := map (λ i, get_agent_run (agents prompt i))
                       (seq 0 (Z.to_nat (num_generations a))) in
      match gather tasks with
      | Raise _ => (Ok None, output_file)
      | Ok agent_runs =>
          if existsb is_None agent_runs then (Ok None, output_file)
          else
            let result := make_result example agent_runs in
            (Ok (Some result), output_file ++ [Parsed (VDict result)])
      end
  end.
End Process.

End Item.

(** ** The bounded scheduling loop of [main] *)

Module Runner.
Import Store Item.

(** Where [main] stands between two suspension points. *)
Inductive control :=
| ForLoop (rest : list dict)
    (* about to take the next [example] of [for example in dataset] *)
| WaitFirst (example : dict) (rest : list dict) (fs : gset nat)
    (* suspended in [asyncio.wait(fs, return_when=FIRST_COMPLETED)] *)
| GatherRest (fs : gset nat)
    (* suspended in the final [asyncio.gather] *)
| Closed
    (* [pbar.close()] reached *)
| Failed (e : exn).
    (* an exception left [main] *)

(** Tasks are numbered in creation order. Set objects live in [sets]; the
    variable [active_tasks] holds the index of the one it is bound to, and
    each task's done-callback remembers the set object whose [discard] was
    registered, which stops being the current one when [asyncio.wait]
    returns a fresh [pending] set. [output_file] is the lines found at
    startup followed by the records written since. *)
Record state := {
  pc : control;
  processed_uuids : gset string;
  sets : list (gset nat);
  active_tasks : nat;
  tasks : list dict;
  running : gset nat;
  callbacks : gmap nat nat;
  output_file : list line
}.

Definition current (s : state) : gset nat :=
  default ∅ (sets s !! active_tasks s).

Definition with_pc (c : control) (s : state) : state :=
  {| pc := c; processed_uuids := processed_uuids s; sets := sets s;
     active_tasks := active_tasks s; tasks := tasks s;
     running := running s; callbacks := callbacks s;
     output_file := output_file s |}.

(** [task = asyncio.create_task(...)], [active_tasks.add(task)],
    [task.add_done_callback(active_tasks.discard)]. *)
Definition create_task (example : dict) (rest : list dict) (s : state) : state :=
  let task := length (tasks s) in
  {| pc := ForLoop rest; processed_uuids := processed_uuids s;
     sets := alter (λ fs, {[task]} ∪ fs) (active_tasks s) (sets s);
     active_tasks := active_tasks s;
     tasks := tasks s ++ [example];
     running := {[task]} ∪ running s;
     callbacks := <[task := active_tasks s]> (callbacks s);
     output_file := output_file s |}.

(** [done, active_tasks = await asyncio.wait(...)]: the name is bound to a
    new set object. *)
Definition rebind (pending : gset nat) (s : state) : state :=
  {| pc := pc s; processed_uuids := processed_uuids s;
     sets := sets s ++ [pending];
     active_tasks := length (sets s); tasks := tasks s;
     running := running s; callbacks := callbacks s;
     output_file := output_file s |}.

Section Steps.
Context {builtins : Builtins}.
Variable a : args.

(** The test of [while len(active_tasks) >= args.max_concurrent] and what
    follows it up to the next suspension: [asyncio.wait] refuses an empty
    set, otherwise [main] suspends on a snapshot of the set; when the
    test fails the task is created. *)
Definition while_test (example : dict) (rest : list dict) (s : state) : state :=
  if decide (max_concurrent a ≤ Z.of_nat (size (current s)))%Z then
    if decide (current s = ∅)
    then with_pc (Failed (Exn "ValueError" "Set of Tasks/Futures is empty.")) s
    else with_pc (WaitFirst example rest (current s)) s
  else create_task example rest s.

(** One move of [main]; [None] while it stays suspended. *)
Definition main_step (s : state) : option state :=
  match pc s with
  | ForLoop [] =>
      if decide (current s = ∅) then Some (with_pc Closed s)
      else Some (with_pc (GatherRest (current s)) s)
  | ForLoop (example :: rest) =>
      match subscript (VDict example) (uuid_column a) with
      | Raise e => Some (with_pc (Failed e) s)
      | Ok v =>
          if decide (uuid_of v ∈ processed_uuids s)
          then Some (with_pc (ForLoop rest) s)
          else Some (while_test example rest s)
      end
  | WaitFirst example rest fs =>
      if decide (fs ⊆ running s) then None
      else Some (while_test example rest (rebind (fs ∩ running s) s))
  | GatherRest fs =>
      if decide (fs ∩ running s = ∅) then Some (with_pc Closed s) else None
  | Closed | Failed _ => None
  end.

(** Task [t] runs [process_example] to its end. The move is allowed in
    every state of [main], also after an exception has left it. *)
Definition finish (t : nat) (agents : string → nat → agent_run)
    (s : state) : option state :=
  if decide (t ∈ running s) then
    match tasks s !! t with
    | Some example =>
        Some {| pc := pc s; processed_uuids := processed_uuids s;
                sets := sets s; active_tasks := active_tasks s;
                tasks := tasks s;
                running := running s ∖ {[t]};
                callbacks := callbacks s;
                output_file :=
                  snd (process_example a example agents (output_file s)) |}
    | None => None
    end
  else None.

(** The done-callback of a finished task [t] runs: [discard] on the set
    object it was registered with. *)
Definition discard (t : nat) (s : state) : option state :=
  if decide (t ∈ running s) then None
  else
    match callbacks s !! t with
    | Some i =>
        Some {| pc := pc s; processed_uuids := processed_uuids s;
                sets := alter (λ fs, fs ∖ {[t]}) i (sets s);
                active_tasks := active_tasks s; tasks := tasks s;
                running := running s;
                callbacks := delete t (callbacks s);
                output_file := output_file s |}
    | None => None
    end.

Inductive label :=
| Main
| Finish (t : nat) (agents : string → nat → agent_run)
| Discard (t : nat).

Definition step (l : label) (s : state) : option state :=
  match l with
  | Main => main_step s
  | Finish t agents => finish t agents s
  | Discard t => discard t s
  end.

(** [main] up to the loop: the startup scan, the creation of a missing
    output file, the empty [active_tasks] set. *)
Definition start (file : option (list line)) (dataset : list dict) : state :=
  match load_processed_uuids file (uuid_column a) with
  | Raise e =>
      {| pc := Failed e; processed_uuids := ∅; sets := [∅];
         active_tasks := 0; tasks := []; running := ∅; callbacks := ∅;
         output_file := default [] file |}
  | Ok processed =>
      {| pc := ForLoop dataset; processed_uuids := processed; sets := [∅];
         active_tasks := 0; tasks := []; running := ∅; callbacks := ∅;
         output_file := default [] file |}
  end.

Inductive reachable (file : option (list line)) (dataset : list dict)
    : state → Prop :=
| reachable_start : reachable file dataset (start file dataset)
| reachable_step s l s' :
    reachable file dataset s → step l s = Some s' →
    reachable file dataset s'.

(** Running a schedule of moves; a move that is not enabled stops it. *)
Fixpoint run (ls : list label) (s : state) : option state :=
  match ls with
  | [] => Some s
  | l :: ls' => match step l s with Some s' => run ls' s' | None => None end
  end.

(** The examples [main] has still to look at. *)
Definition remaining (c : control) : list dict :=
  match c with
  | ForLoop rest => rest
  | WaitFirst example rest _ => example :: rest
  | GatherRest _ | Closed | Failed _ => []
  end.

(** The test [uuid not in processed_uuids] of the loop, for an example
    that has the uuid column. *)
Definition unprocessed (processed : gset string) (example : dict) : bool :=
  match dict_get example (uuid_column a) with
  | Some v => bool_decide (uuid_of v ∉ processed)
  | None => false
  end.

(** What the scheduling loop keeps true of the set bound to
    [active_tasks]: it holds every task still running, and it never
    has more than [max_concurrent] members (none, when the limit is
    negative). *)
Record bounded (s : state) : Prop := {
  bounded_size :
    (Z.of_nat (size (current s)) ≤ Z.max 0 (max_concurrent a))%Z;
  bounded_bound : (active_tasks s < length (sets s))%nat;
  bounded_running : running s ⊆ current s;
  bounded_waiting :
    match pc s with
    | WaitFirst _ _ fs =>
        running s ⊆ fs ∧
        (Z.of_nat (size fs) ≤ Z.max 0 (max_concurrent a))%Z
    | _ => True
    end
}.

(** What the loop keeps true of the tasks created so far, for a run
    started on [file] and [dataset]: they are the unprocessed examples
    among those already looked at, in input order. *)
Record scheduled (file : option (list line)) (dataset : list dict)
    (s : state) : Prop := {
  scheduled_scan :
    match load_processed_uuids file (uuid_column a) with
    | Ok processed => processed_uuids s = processed
    | Raise e => pc s = Failed e ∧ tasks s = []
    end;
  scheduled_sublist : tasks s ++ remaining (pc s) `sublist_of` dataset;
  scheduled_exact :
    match pc s with
    | Failed _ => True
    | c =>
        tasks s ++ filter (λ e, unprocessed (processed_uuids s) e) (remaining c)
        = filter (λ e, unprocessed (processed_uuids s) e) dataset
    end;
  scheduled_unprocessed :
    ∀ example, example ∈ tasks s → unprocessed (processed_uuids s) example;
  scheduled_waiting :
    match pc s with
    | WaitFirst example _ _ => unprocessed (processed_uuids s) example
    | _ => True
    end
}.

(** What the run keeps true of the output file: it is the file found at
    startup followed by records of distinct finished tasks, each made
    from the task's example and [num_generations] generations, none of
    them [None]. *)
Record persisted (file : option (list line)) (s : state) : Prop := {
  persisted_ids : ∀ t, t ∈ running s → (t < length (tasks s))%nat;
  persisted_records :
    ∃ (ws : list nat) (records : list line),
      NoDup ws ∧
      (∀ t, t ∈ ws → t ∉ running s) ∧
      output_file s = default [] file ++ records ∧
      Forall2 (λ t r, ∃ example generations,
                 tasks s !! t = Some example ∧
                 length generations = Z.to_nat (num_generations a) ∧
                 existsb is_None generations = false ∧
                 r = Parsed (VDict (make_result example generations)))
              ws records
}.
End Steps.

End Runner.

(** ** Text helpers used by the scorers *)

Module Text.

(** ASCII whitespace, the separators of [str.split()]. *)
Definition is_space (c : ascii) : bool :=
  let n := Ascii.nat_of_ascii c in
  (n =? 32)%nat || ((9 <=? n)%nat && (n <=? 13)%nat).

Fixpoint split_from (s : string) (word : string) : list string :=
  match s with
  | EmptyString => match word with EmptyString => [] | _ => [word] end
  | String c s' =>
      if is_space c then
        match word with
        | EmptyString => split_from s' EmptyString
        | _ => word :: split_from s' EmptyString
        end
      else split_from s' (word +:+ String c EmptyString)
  end.

(** [s.split()]: the maximal runs of non-whitespace characters. *)
Definition split (s : string) : list string := split_from s EmptyString.

Definition lower_ascii (c : ascii) : ascii :=
  let n := Ascii.nat_of_ascii c in
  if (65 <=? n)%nat && (n <=? 90)%nat then Ascii.ascii_of_nat (n + 32) else c.

(** [s.lower()] on ASCII text. *)
Fixpoint lower (s : string) : string :=
  match s with
  | EmptyString => EmptyString
  | String c s' => String (lower_ascii c) (lower s')
  end.

(** The number of positions of [s] at which [needle] starts. *)
Fixpoint occurrences (needle s : string) : nat :=
  match s with
  | EmptyString => 0
  | String _ s' =>
      (if String.prefix needle s then 1 else 0) + occurrences needle s'
  end.

Definition contains (needle s : string) : bool :=
  match needle with
  | EmptyString => true
  | _ => negb (occurrences needle s =? 0)%nat
  end.

(** The digits of the fraction [r / d] (with [0 <= r < d]), until the
    remainder vanishes or [fuel] digits are out. *)
Fixpoint fraction_digits (fuel : nat) (r d : Z) : string :=
  match fuel with
  | O => EmptyString
  | S fuel' =>
      if (r =? 0)%Z then EmptyString
      else pretty (r * 10 / d)%Z +:+ fraction_digits fuel' ((r * 10) mod d)%Z d
  end.

(** [repr] of a float whose decimal expansion is short: [1.5], [1.0],
    [-0.25]. *)
Definition float_repr (q : Q) : string :=
  let n := Z.abs (Qnum q) in
  let d := Z.pos (Qden q) in
  let digits := fraction_digits 17 (n mod d)%Z d in
  (if (Qnum q <? 0)%Z then "-" else EmptyString) +:+ pretty (n / d)%Z +:+ "." +:+
  match digits with EmptyString => "0" | _ => digits end.

End Text.

(** ** Reward scorers *)

Module Rewards.
Import Text.
Local Open Scope Q_scope.

(** A completion is a single-message list; a scorer reads the content
    field of that message. *)
Record completion := { content : string }.

Definition scorer := list completion → list Q.

(** *** Repetition penalty *)

(** The windows of [n] consecutive words, in order: what zipping the [n]
    shifted copies of the word list yields. *)
Fixpoint zipngram (n : nat) (words : list string) : list (list string) :=
  match n, words with
  | O, _ | _, [] => []
  | _, _ :: words' =>
      if decide (n ≤ length words)%nat
      then take n words :: zipngram n words'
      else []
  end.

(** Modelled from the spec: [get_repetition_penalty_reward] of
    [open_r1/rewards.py], which is not among the sources (only its tests
    are). Per completion: lowercase, split on whitespace; fewer than
    [ngram_size] words score 0; otherwise [max_penalty] scaled by one minus
    the ratio of unique n-grams to total n-grams. *)
Definition repetition_penalty (ngram_size : nat) (max_penalty : Q)
    (c : completion) : Q :=
  let words := split (lower (content c)) in
  if decide (length words < ngram_size)%nat then 0
  else
    let ngrams := zipngram ngram_size words in
    let total := length ngrams in
    let unique := length (remove_dups ngrams) in
    (1 - inject_Z (Z.of_nat unique) / inject_Z (Z.of_nat total)) * max_penalty.

(** Modelled from the spec: the factory rejects a non-negative
    [max_penalty] when the scorer is built and returns the scorer
    otherwise. The error text is the one the test matches. *)
Definition get_repetition_penalty_reward (ngram_size : nat) (max_penalty : Q)
    : result scorer :=
  if Qle_bool 0 max_penalty then
    Raise (Exn "ValueError"
      ("max_penalty " +:+ float_repr max_penalty +:+ " should not be positive"))
  else Ok (map (repetition_penalty ngram_size max_penalty)).

(** The word positions that lie in an n-gram occurrence repeating an
    n-gram met earlier in the completion; [start] is the position of the
    first word of the first n-gram of [ngrams], [seen] the n-grams met so
    far. *)
Fixpoint repeated_positions (n start : nat) (seen ngrams : list (list string))
    : list nat :=
  match ngrams with
  | [] => []
  | ng :: rest =>
      (if decide (ng ∈ seen) then seq start n else []) ++
      repeated_positions n (S start) (ng :: seen) rest
  end.

(** Modelled from the spec: the scorer of [get_repetition_penalty_reward]
    ([open_r1/rewards.py] is not among the sources), with the ratio that
    the assertions of [TestRepetitionPenaltyReward] all agree with in
    place of the spec's. Per completion: lowercase, split on whitespace;
    fewer than [ngram_size] words score 0; otherwise [max_penalty] scaled
    by the share of the words that lie in a repeated n-gram occurrence. *)
Definition repetition_penalty_by_coverage (ngram_size : nat) (max_penalty : Q)
    (c : completion) : Q :=
  let words := split (lower (content c)) in
  if decide (length words < ngram_size)%nat then 0
  else
    let covered :=
      remove_dups (repeated_positions ngram_size 0 [] (zipngram ngram_size words)) in
    inject_Z (Z.of_nat (length covered)) / inject_Z (Z.of_nat (length words))
    * max_penalty.

(** Word [i] lies in the n-gram that starts at word [j], and the same
    n-gram starts at an earlier word [j']. *)
Definition in_repeated_ngram (n : nat) (words : list string) (i : nat) : Prop :=
  ∃ j j', (j' < j)%nat ∧ (j ≤ i < j + n)%nat ∧ (j + n ≤ length words)%nat ∧
          take n (drop j words) = take n (drop j' words).

(** The factory above with this scoring rule in place of the spec's. *)
Definition get_repetition_penalty_by_coverage (ngram_size : nat) (max_penalty : Q)
    : result scorer :=
  match get_repetition_penalty_reward ngram_size max_penalty with
  | Raise e => Raise e
  | Ok _ => Ok (map (repetition_penalty_by_coverage ngram_size max_penalty))
  end.

(** *** Reasoning steps *)

(** Modelled from the spec: [reasoning_steps_reward] of
    [open_r1/rewards.py], which is not among the sources. The count of
    recognised step markers over 3, capped at 1; the step-detection rule
    is fixed but not described, so it is an argument. *)
Definition reasoning_steps_reward (count_steps : string → nat) : scorer :=
  map (λ c, Qmin 1 (inject_Z (Z.of_nat (count_steps (content c))) / 3)).

(** A step-detection rule that covers the markers occurring in the
    inputs of [test_reasoning_steps_reward]. *)
Definition count_test_markers (s : string) : nat :=
  (occurrences "Step " s + occurrences "First," s +
   occurrences "Second," s + occurrences "Finally," s)%nat.

(** *** The assertions of [tests/test_rewards.py] *)

(** [assertEqual] on lists of floats. *)
Fixpoint assertEqual (first second : list Q) : bool :=
  match first, second with
  | [], [] => true
  | x :: first', y :: second' => Qeq_bool x y && assertEqual first' second'
  | _, _ => false
  end.

(** [assertAlmostEqual(first, second, places)]: the difference rounds to
    zero at [places] decimal places. *)
Definition assertAlmostEqual (places : nat) (first second : Q) : bool :=
  Qeq_bool first second ||
  Qle_bool (Qabs (first - second) * inject_Z (2 * 10 ^ Z.of_nat places)) 1.

(** [assertAlmostEqual(rewards[0], expected, places)]; an empty list has
    no first element. *)
Definition assertFirstAlmostEqual (places : nat) (rewards : list Q)
    (expected : Q) : bool :=
  match rewards with
  | reward :: _ => assertAlmostEqual places reward expected
  | [] => false
  end.

(** [assertAlmostEqual(rewards[i], expected, places)]. *)
Definition assertNthAlmostEqual (places : nat) (rewards : list Q) (i : nat)
    (expected : Q) : bool :=
  match rewards !! i with
  | Some reward => assertAlmostEqual places reward expected
  | None => false
  end.

Section RepetitionTests.
Variable factory : nat → Q → result scorer.

Definition rewards_of (ngram_size : nat) (max_penalty : Q)
    (contents : list string) : option (list Q) :=
  match factory ngram_size max_penalty with
  | Ok reward_fn => Some (reward_fn (map Build_completion contents))
  | Raise _ => None
  end.

Definition assertRaises (class : string) (r : result scorer) : bool :=
  match r with
  | Raise e => bool_decide (exn_class e = class)
  | Ok _ => false
  end.

(** The pattern has no metacharacter but the dot, which the text
    matches literally. *)
Definition assertRaisesRegex (class pattern : string) (r : result scorer) : bool :=
  match r with
  | Raise e => bool_decide (exn_class e = class) && contains pattern (exn_text e)
  | Ok _ => false
  end.

Definition test_positive_max_penalty_raises_value_error : bool :=
  assertRaises "ValueError" (factory 2 1) &&
  assertRaisesRegex "ValueError" "max_penalty 1.5 should not be positive"
    (factory 2 (3 # 2)).

Definition test_full_repetition : bool :=
  match rewards_of 2 (-1 # 1) ["this this this this this"] with
  | Some rewards => assertEqual rewards [-8 # 10]
  | None => false
  end.

Definition test_partial_repetition : bool :=
  match rewards_of 2 (-1 # 1) ["this is a this is a test"] with
  | Some rewards => assertFirstAlmostEqual 4 rewards (-4285714 # 10000000)
  | None => false
  end.

Definition test_one_word_completion : bool :=
  match rewards_of 3 (-1 # 1) ["word"] with
  | Some rewards => assertEqual rewards [0]
  | None => false
  end.

Definition test_two_word_completion : bool :=
  match rewards_of 3 (-1 # 1) ["two words"] with
  | Some rewards => assertEqual rewards [0]
  | None => false
  end.

Definition test_three_word_completion : bool :=
  match rewards_of 3 (-1 # 1) ["three different words"] with
  | Some rewards => assertEqual rewards [0]
  | None => false
  end.

Definition test_no_repetition : bool :=
  match rewards_of 2 (-1 # 1) ["this is a test sentence"] with
  | Some rewards => assertEqual rewards [0]
  | None => false
  end.

Definition test_multiple_completions : bool :=
  match rewards_of 3 (-1 # 2) ["this is a test"; "test test test test"] with
  | Some rewards =>
      assertNthAlmostEqual 7 rewards 0 0 &&
      assertNthAlmostEqual 7 rewards 1 (-375 # 1000)
  | None => false
  end.

Definition test_empty_completion : bool :=
  match rewards_of 2 (-1 # 1) [EmptyString] with
  | Some rewards => assertEqual rewards [0]
  | None => false
  end.

Definition test_different_ngram_size : bool :=
  match rewards_of 3 (-2 # 1) ["this is a this is a test"] with
  | Some rewards => assertNthAlmostEqual 4 rewards 0 (-8571428 # 10000000)
  | None => false
  end.

Definition test_mixed_case : bool :=
  match rewards_of 2 (-1 # 1) ["This is A Test"; "this IS a test"] with
  | Some [first; second] => assertAlmostEqual 7 first second
  | _ => false
  end.

Definition test_three_word_repetition_completion : bool :=
  match rewards_of 3 (-1 # 1) ["word word word word"] with
  | Some rewards => assertEqual rewards [-75 # 100]
  | None => false
  end.

Definition test_four_word_completion_with_repetition : bool :=
  match rewards_of 3 (-1 # 1) ["one two one two"] with
  | Some rewards => assertEqual rewards [0]
  | None => false
  end.

Definition test_five_word_completion_with_repetition : bool :=
  match rewards_of 3 (-1 # 2) ["A B C A B"] with
  | Some rewards => assertEqual rewards [0]
  | None => false
  end.

Definition test_six_word_completion_with_repetition : bool :=
  match rewards_of 3 (-1 # 1) ["A B C A B C"] with
  | Some rewards => assertEqual rewards [-5 # 10]
  | None => false
  end.

Definition test_long_completion_with_repetition : bool :=
  match rewards_of 3 (-1 # 1) ["A B C A B C E F G A B C A B C"] with
  | Some rewards => assertNthAlmostEqual 7 rewards 0 (-6 # 10)
  | None => false
  end.

Definition test_long_completion_without_repetition : bool :=
  match rewards_of 3 (-1 # 1) ["A B C D E F G H I J K L"] with
  | Some rewards => assertEqual rewards [0]
  | None => false
  end.

(** The whole of [TestRepetitionPenaltyReward], in file order. *)
Definition TestRepetitionPenaltyReward : list bool :=
  [ test_positive_max_penalty_raises_value_error;
    test_no_repetition;
    test_full_repetition;
    test_partial_repetition;
    test_multiple_completions;
    test_empty_completion;
    test_different_ngram_size;
    test_mixed_case;
    test_one_word_completion;
    test_two_word_completion;
    test_three_word_completion;
    test_three_word_repetition_completion;
    test_four_word_completion_with_repetition;
    test_five_word_completion_with_repetition;
    test_six_word_completion_with_repetition;
    test_long_completion_with_repetition;
    test_long_completion_without_repetition ].
End RepetitionTests.

(** The cases of [test_reasoning_steps_reward]: content and expected
    reward, compared with [assertAlmostEqual] at the default 7 places. *)
Definition reasoning_steps_cases : list (string * Q) :=
  [ ("Step 1: First step" +:+ newline +:+ "Step 2: Second step" +:+ newline +:+
     "Step 3: Third step", 1);
    ("First, we do this." +:+ newline +:+ "Second, we do that." +:+ newline +:+
     "Finally, we conclude.", 1);
    ("Step 1: Only step", 1 # 3);
    ("First, we do this." +:+ newline +:+ "Finally, we conclude.", 2 # 3);
    ("Just plain text without any clear steps", 0) ].

Definition test_reasoning_steps_reward (reward_fn : scorer) : bool :=
  forallb (λ '(text, expected_reward),
             assertFirstAlmostEqual 7 (reward_fn [Build_completion text])
               expected_reward)
          reasoning_steps_cases.

End Rewards.

(** * Concrete inputs *)

Module Samples.

(** The defaults of the command line, with [n] generations per item and at
    most [c] items at a time. *)
Definition cli (n c : Z) : args :=
  {| output_file_path := "traces.jsonl";
     prompt_column := "prompt"; uuid_column := "uuid";
     api_addr := "localhost:39876";
     num_generations := n; temperature := 6 # 10; top_p := 95 # 100;
     max_tokens := 16384; max_concurrent := c |}.

Definition server : args := cli 4 1000.

Definition hello : value :=
  VList [VDict [("role", VStr "user"); ("content", VStr "hello")]].

Definition refused : exn := Exn "ClientConnectorError" "Cannot connect to host".

(** Every exchange is refused. *)
Definition env_down (i : nat) : Executor.attempt :=
  {| Executor.rnd := 1 # 2; Executor.reply := Executor.PostRaises refused |}.

(** Two refused exchanges, then a 500 response with a JSON body. *)
Definition env_500 (i : nat) : Executor.attempt :=
  {| Executor.rnd := 1 # 4;
     Executor.reply :=
       if (i <? 2)%nat then Executor.PostRaises refused
       else Executor.BodyJson 500 (VDict [("error", VStr "internal")]) |}.

(** A stand-in for the two library functions: [str] on scalars, and the
    identity where the digest goes. The facts below are stated for every
    instance; this one serves to evaluate them. *)
Definition plain_str (v : value) : string :=
  match v with
  | VNone => "None"
  | VBool true => "True"
  | VBool false => "False"
  | VInt n => pretty n
  | VFloat x => Text.float_repr x
  | VStr s => s
  | VList _ => "[...]"
  | VDict _ => "{...}"
  end.

Definition plain : Builtins :=
  {| py_str := plain_str; md5_hexdigest := λ s, s |}.

Definition item (uuid : string) : dict :=
  [("uuid", VStr uuid); ("prompt", VStr ("solve " +:+ uuid))].

(** A file whose second line was cut short by a crash. *)
Definition file_with_torn_line : list Store.line :=
  [Store.Parsed (VDict (item "A")); Store.Unparsable "{";
   Store.Parsed (VDict (item "C"))].

(** A file holding a JSON object without the uuid column. *)
Definition file_with_foreign_line : list Store.line :=
  [Store.Parsed (VDict (item "A")); Store.Parsed (VDict [("id", VStr "B")])].

(** Every agent run ends well with a one-message memory. *)
Definition agents_ok (prompt : string) (i : nat) : Item.agent_run :=
  Item.AgentRunOk [VDict [("role", VStr "assistant"); ("content", VStr prompt)]].

(** The second run fails inside the agent. *)
Definition agents_second_fails (prompt : string) (i : nat) : Item.agent_run :=
  if (i =? 1)%nat then Item.AgentRunRaises (Exn "AgentError" "max steps")
  else agents_ok prompt i.


(** A rerun: the file holds the records of A and B, the input is A, B, C;
    one generation per item, at most two items at a time. [main] skips A
    and B, creates the task of C, waits for it and ends. *)
Definition file_AB : option (list Store.line) :=
  Some [Store.Parsed (VDict (item "A")); Store.Parsed (VDict (item "B"))].

Definition input_ABC : list dict := [item "A"; item "B"; item "C"].

Definition resumed : Runner.state :=
  let s0 := @Runner.start plain (cli 1 2) file_AB input_ABC in
  default s0 (@Runner.run plain (cli 1 2)
    [Runner.Main; Runner.Main; Runner.Main; Runner.Main;
     Runner.Finish 0 agents_ok; Runner.Discard 0; Runner.Main] s0).

(** A fresh run with limit 1 on an input that names the key A twice:
    the second A waits for the first to finish, then gets its own task. *)
Definition input_AA : list dict := [item "A"; item "A"].

Definition waiting : Runner.state :=
  let s0 := @Runner.start plain (cli 1 1) None input_AA in
  default s0 (@Runner.run plain (cli 1 1) [Runner.Main; Runner.Main] s0).

Definition twice : Runner.state :=
  let s0 := @Runner.start plain (cli 1 1) None input_AA in
  default s0 (@Runner.run plain (cli 1 1)
    [Runner.Main; Runner.Main; Runner.Finish 0 agents_ok; Runner.Discard 0;
     Runner.Main; Runner.Main; Runner.Finish 1 agents_ok; Runner.Discard 1;
     Runner.Main] s0).

End Samples.

(** * Measures used by the further facts *)

Module Measure.

(** The seconds a trace spends in [asyncio.sleep]. *)
Fixpoint sleep_total (tr : list Executor.event) : Q :=
  match tr with
  | [] => 0
  | Executor.Sleep seconds :: tr' => seconds + sleep_total tr'
  | _ :: tr' => sleep_total tr'
  end.

(** The moves of a schedule in which a task finishes. *)
Definition is_Finish (l : Runner.label) : bool :=
  match l with Runner.Finish _ _ => true | _ => false end.

(** The [total] handed to the progress bar: [len(dataset) -
    len(processed_uuids)]. *)
Definition pbar_total (processed_uuids : gset string) (dataset : list dict) : Z :=
  Z.of_nat (length dataset) - Z.of_nat (size processed_uuids).

(** The digest [main] computes for an example that has the uuid column. *)
Definition digest_of {builtins : Builtins} (a : args) (example : dict)
    : option string :=
  Store.uuid_of <$> dict_get example (uuid_column a).

End Measure.

(** * Further concrete inputs *)

Module MoreSamples.

(** The record of A as a run with no generation writes it. *)
Definition record_A : Store.line :=
  Store.Parsed (VDict (Item.make_result (Samples.item "A") [])).

(** A rerun over a file that holds this record, on an input that starts
    with A. *)
Definition rerun_on_A : Runner.state :=
  @Runner.start Samples.plain (Samples.cli 0 2) (Some [record_A])
    [Samples.item "A"; Samples.item "B"].



(** The file of [Samples.file_AB] on disk, its last line finished. *)
Definition disk_AB : Store.disk :=
  {| Store.whole := [Store.Parsed (VDict (Samples.item "A"));
                     Store.Parsed (VDict (Samples.item "B"))];
     Store.torn := None |}.

(** A file whose only line, the record of A, was left without its
    newline: a record written behind it makes one line of two objects,
    which [json.loads] rejects. *)
Definition unfinished_A : Store.disk :=
  {| Store.whole := [];
     Store.torn := Some (Store.Parsed (VDict (Samples.item "A")),
                         λ record, Store.Unparsable "{...}{...}") |}.

(** Agents whose runs all end at once with an empty memory. *)
Definition quiet (prompt : string) (i : nat) : Item.agent_run :=
  Item.AgentRunOk [].

(** The run of [Samples.waiting] once the first task has finished; its
    callback has not run yet. *)
Definition first_done : Runner.state :=
  let s0 := @Runner.start Samples.plain (Samples.cli 1 1) None Samples.input_AA in
  default s0 (@Runner.run Samples.plain (Samples.cli 1 1)
    [Runner.Main; Runner.Main; Runner.Finish 0 Samples.agents_ok] s0).

(** A fresh run with a limit of zero: [main] looks at A and calls
    [asyncio.wait] on the empty set. *)
Definition no_room : Runner.state :=
  let s0 := @Runner.start Samples.plain (Samples.cli 1 0) None [Samples.item "A"] in
  default s0 (@Runner.run Samples.plain (Samples.cli 1 0) [Runner.Main] s0).

End MoreSamples.

(** * Facts *)

Lemma dict_get_set_eq d k v : dict_get (dict_set d k v) k = Some v.
Proof.
  induction d as [|[k' v'] d IH]; simpl.
  - by rewrite decide_True.
  - destruct (decide (k' = k)) as [->|Hne]; simpl.
    + by rewrite decide_True.
    + by rewrite decide_False.
Qed.

Lemma dict_get_set_ne d k k' v :
  k ≠ k' → dict_get (dict_set d k v) k' = dict_get d k'.
Proof.
  intros Hne. induction d as [|[k0 v0] d IH]; simpl.
  - by rewrite decide_False.
  - destruct (decide (k0 = k)) as [->|Hk]; simpl.
    + by rewrite !decide_False.
    + destruct (decide (k0 = k')); done.
Qed.


(** ** Lists *)

Section ListFacts.
Context {A B : Type}.

Lemma sublist_omap (f : A → option B) (l1 l2 : list A) :
  l1 `sublist_of` l2 → omap f l1 `sublist_of` omap f l2.
Proof.
  induction 1 as [|x l1 l2 _ IH|x l1 l2 _ IH]; simpl.
  - constructor.
  - destruct (f x); [by constructor|done].
  - destruct (f x); [by constructor|done].
Qed.

(** Two positions whose images under [f] agree are one position, when
    the images are pairwise distinct. *)
Lemma omap_lookup_inj (f : A → option B) (l : list A) : ∀ i j x y k,
  NoDup (omap f l) →
  l !! i = Some x → l !! j = Some y → f x = Some k → f y = Some k → i = j.
Proof.
  induction l as [|z l IH]; intros i j x y k Hnd Hi Hj Hx Hy; [done|].
  assert (Hin : ∀ n w, l !! n = Some w → f w = Some k → k ∈ omap f l).
  { intros n w Hn Hw. apply list_elem_of_omap. exists w. split; [|done].
    by apply list_elem_of_lookup_2 in Hn. }
  simpl in Hnd. destruct i as [|i], j as [|j]; simpl in Hi, Hj.
  - done.
  - injection Hi as ->. rewrite Hx in Hnd. apply NoDup_cons_1_1 in Hnd.
    destruct Hnd. by apply (Hin j y).
  - injection Hj as ->. rewrite Hy in Hnd. apply NoDup_cons_1_1 in Hnd.
    destruct Hnd. by apply (Hin i x).
  - f_equal. apply (IH i j x y k); try done.
    destruct (f z); [by apply NoDup_cons_1_2 in Hnd|done].
Qed.

Lemma Forall2_NoDup (R : A → B → Prop) (l : list A) (k : list B) :
  (∀ x x' y, R x y → R x' y → x = x') →
  Forall2 R l k → NoDup l → NoDup k.
Proof.
  intros Hinj. induction 1 as [|x y l k Hxy HF IH]; intros Hnd; [constructor|].
  apply NoDup_cons in Hnd as [Hx Hnd]. apply NoDup_cons. split; [|by apply IH].
  intros Hy. apply list_elem_of_lookup in Hy as [i Hi].
  destruct (Forall2_lookup_r _ _ _ _ _ HF Hi) as (x' & Hx' & HR).
  apply list_elem_of_lookup_2 in Hx'.
  by rewrite (Hinj x x' y Hxy HR) in Hx.
Qed.
End ListFacts.

(** ** The retrying request executor *)

Section ExecutorFacts.
Import Executor.
Variables (a : args) (msgs : value) (env : nat → attempt).

Lemma jitter_range i :
  (0 <= rnd (env i))%Q → (rnd (env i) < 1)%Q →
  (0 <= jitter (env i))%Q ∧ (jitter (env i) <= 1 # 10)%Q.
Proof. unfold jitter, uniform. intros H0 H1. split; lra. Qed.

Lemma jitter_draw i : (jitter (env i) == rnd (env i) / 10)%Q.
Proof. unfold jitter, uniform. field. Qed.

Lemma failed_attempt_raised i e :
  raised (reply (env i)) = Some e →
  failed_attempt a msgs env i =
    [Sleep (jitter (env i)); Post (make_request a msgs);
     Print ("API error (will retry): " +:+ exn_text e); Sleep 10].
Proof. unfold failed_attempt. by intros ->. Qed.

(** [k] raising exchanges in a row use up [k] units of budget and leave
    [k] failed attempts in the trace. *)
Lemma retry_loop_failures k : ∀ budget i,
  (∀ j, (j < k)%nat → is_Some (raised (reply (env (i + j))))) →
  retry_loop a msgs env (k + budget) i =
    (fst (retry_loop a msgs env budget (i + k)),
     flat_map (failed_attempt a msgs env) (seq i k) ++
     snd (retry_loop a msgs env budget (i + k))).
Proof.
  induction k as [|k IH]; intros budget i Hfail.
  - simpl. rewrite Nat.add_0_r. by destruct (retry_loop _ _ _ _ _).
  - assert (Hi : is_Some (raised (reply (env i)))).
    { specialize (Hfail 0%nat). rewrite Nat.add_0_r in Hfail. apply Hfail. lia. }
    destruct Hi as [e He].
    assert (IH' : retry_loop a msgs env (k + budget) (S i) =
      (fst (retry_loop a msgs env budget (i + S k)),
       flat_map (failed_attempt a msgs env) (seq (S i) k) ++
       snd (retry_loop a msgs env budget (i + S k)))).
    { replace (i + S k)%nat with (S i + k)%nat by lia. apply IH.
      intros j Hj. replace (S i + j)%nat with (i + S j)%nat by lia.
      apply Hfail. lia. }
    cbn [seq flat_map]. rewrite (failed_attempt_raised _ _ He).
    change (S k + budget)%nat with (S (k + budget)).
    cbn [retry_loop]. rewrite IH'.
    destruct (reply (env i)) as [e'|st e'|st body] eqn:Hr; simpl in He;
      try discriminate; injection He as ->; reflexivity.
Qed.

Lemma retry_loop_body budget i status body :
  reply (env i) = BodyJson status body →
  retry_loop a msgs env (S budget) i =
    (body, [Sleep (jitter (env i)); Post (make_request a msgs)]).
Proof. simpl. by intros ->. Qed.

Lemma generate_after_failures k status body :
  (k < 10)%nat →
  (∀ i, (i < k)%nat → is_Some (raised (reply (env i)))) →
  reply (env k) = BodyJson status body →
  generate_completion_from_messages a msgs env =
    (body, flat_map (failed_attempt a msgs env) (seq 0 k) ++
           [Sleep (jitter (env k)); Post (make_request a msgs)]).
Proof.
  intros Hk Hfail Hbody. unfold generate_completion_from_messages.
  replace 10%nat with (k + S (9 - k))%nat by lia.
  rewrite retry_loop_failures by (intros j Hj; by apply Hfail).
  simpl (0 + k)%nat. by rewrite (retry_loop_body _ _ _ _ Hbody).
Qed.

Lemma generate_exhausted :
  (∀ i, (i < 10)%nat → is_Some (raised (reply (env i)))) →
  generate_completion_from_messages a msgs env =
    (VNone, flat_map (failed_attempt a msgs env) (seq 0 10)).
Proof.
  intros Hfail. unfold generate_completion_from_messages.
  change 10%nat with (10 + 0)%nat at 1.
  rewrite retry_loop_failures by (intros j Hj; by apply Hfail).
  simpl retry_loop. simpl fst. simpl snd. by rewrite app_nil_r.
Qed.

Lemma failed_attempts_prints k :
  (∀ i, (i < k)%nat → is_Some (raised (reply (env i)))) →
  length (filter is_Print (flat_map (failed_attempt a msgs env) (seq 0 k))) = k.
Proof.
  intros Hfail.
  assert (Hgen : ∀ n i, (i + n ≤ k)%nat →
    length (filter is_Print (flat_map (failed_attempt a msgs env) (seq i n))) = n).
  { induction n as [|n IH]; intros i Hle; [done|].
    cbn [seq flat_map]. rewrite filter_app, length_app, IH by lia.
    destruct (Hfail i ltac:(lia)) as [e He].
    by rewrite (failed_attempt_raised _ _ He). }
  apply Hgen. lia.
Qed.

Lemma failed_attempts_posts k :
  (∀ i, (i < k)%nat → is_Some (raised (reply (env i)))) →
  length (filter is_Post (flat_map (failed_attempt a msgs env) (seq 0 k))) = k.
Proof.
  intros Hfail.
  assert (Hgen : ∀ n i, (i + n ≤ k)%nat →
    length (filter is_Post (flat_map (failed_attempt a msgs env) (seq i n))) = n).
  { induction n as [|n IH]; intros i Hle; [done|].
    cbn [seq flat_map]. rewrite filter_app, length_app, IH by lia.
    destruct (Hfail i ltac:(lia)) as [e He].
    by rewrite (failed_attempt_raised _ _ He). }
  apply Hgen. lia.
Qed.

(** C5. [generate_completion_from_messages] sleeps a random jitter before
    each attempt: one tenth of that attempt's draw of the random
    generator, so between 0 and 0.1 s; an exchange that raises (whatever
    the exception) costs one unit of a budget of 10, is followed by a 10 s
    sleep and a new attempt; the first parsed body is returned; after ten
    raising exchanges the function returns [None] and raises nothing. *)
Theorem C5_retrying_request_executor :
  (∀ i, (0 <= rnd (env i))%Q ∧ (rnd (env i) < 1)%Q) →
  (∀ i, (jitter (env i) == rnd (env i) / 10)%Q ∧
        (0 <= jitter (env i))%Q ∧ (jitter (env i) <= 1 # 10)%Q) ∧
  (∀ k status body,
     (k < 10)%nat →
     (∀ i, (i < k)%nat → is_Some (raised (reply (env i)))) →
     reply (env k) = BodyJson status body →
     generate_completion_from_messages a msgs env =
       (body, flat_map (failed_attempt a msgs env) (seq 0 k) ++
              [Sleep (jitter (env k)); Post (make_request a msgs)])) ∧
  ((∀ i, (i < 10)%nat → is_Some (raised (reply (env i)))) →
   generate_completion_from_messages a msgs env =
     (VNone, flat_map (failed_attempt a msgs env) (seq 0 10))).
Proof.
  intros Hrnd. split; [|split].
  - intros i. destruct (Hrnd i). split; [apply jitter_draw|by apply jitter_range].
  - intros k status body. apply generate_after_failures.
  - apply generate_exhausted.
Qed.

(** C10. A response whose body parses as JSON ends the loop with that body
    as the result, whatever its HTTP status: after [k] raising exchanges
    the trace holds [k] error reports and [k + 1] posts, so the response
    itself costs no budget and is followed by no backoff. *)
Theorem C10_json_body_returned_whatever_status k status body :
  (k < 10)%nat →
  (∀ i, (i < k)%nat → is_Some (raised (reply (env i)))) →
  reply (env k) = BodyJson status body →
  fst (generate_completion_from_messages a msgs env) = body ∧
  length (filter is_Print (snd (generate_completion_from_messages a msgs env))) = k ∧
  length (filter is_Post (snd (generate_completion_from_messages a msgs env))) = S k ∧
  last (snd (generate_completion_from_messages a msgs env)) =
    Some (Post (make_request a msgs)).
Proof.
  intros Hk Hfail Hbody.
  rewrite (generate_after_failures _ _ _ Hk Hfail Hbody). cbn [fst snd].
  rewrite !filter_app, !length_app, failed_attempts_prints, failed_attempts_posts by done.
  repeat split; [simpl; lia | simpl; lia |].
  rewrite last_app. reflexivity.
Qed.
End ExecutorFacts.

Lemma C5_witness :
  Executor.generate_completion_from_messages Samples.server Samples.hello Samples.env_down =
    (VNone, flat_map (Executor.failed_attempt Samples.server Samples.hello Samples.env_down)
                     (seq 0 10)).
Proof.
  refine (proj2 (proj2 (C5_retrying_request_executor
                          Samples.server Samples.hello Samples.env_down _)) _).
  - intros i. split; [discriminate | reflexivity].
  - intros i _. by eexists.
Defined.

Lemma C10_witness :
  fst (Executor.generate_completion_from_messages Samples.server Samples.hello Samples.env_500)
    = VDict [("error", VStr "internal")].
Proof.
  refine (proj1 (C10_json_body_returned_whatever_status
                   Samples.server Samples.hello Samples.env_500 2 500 _ _ _ _)).
  - lia.
  - intros i Hi. destruct i as [|[|i]]; [by eexists | by eexists | lia].
  - reflexivity.
Defined.

(** ** The startup scan *)

Section StoreFacts.
Import Store.
Context {builtins : Builtins}.

Lemma subscript_key_of_line data k v :
  subscript data k = Ok v ↔ key_of_line k (Parsed data) = Some v.
Proof.
  destruct data as [| | | | | |d]; simpl; try (split; discriminate).
  destruct (dict_get d k); split; congruence.
Qed.


Lemma is_JSONDecodeError_true e :
  is_JSONDecodeError e = true ↔ exn_class e = "JSONDecodeError".
Proof. unfold is_JSONDecodeError. by rewrite bool_decide_eq_true. Qed.


(** The body of the [try] yields the digest of the key of the line, or
    raises on a line that has no key. *)
Lemma line_uuid_cases k l :
  (∃ v, key_of_line k l = Some v ∧ line_uuid k l = Ok (uuid_of v)) ∨
  (∃ e, key_of_line k l = None ∧ line_uuid k l = Raise e).
Proof.
  destruct l as [text|e|data|cells]; simpl.
  - right. by eexists.
  - right. by eexists.
  - destruct (subscript data k) as [v|e] eqn:Hs.
    + left. exists v. split; [|done]. by apply subscript_key_of_line.
    + right. exists e. split; [|done].
      destruct (key_of_line k (Parsed data)) as [v|] eqn:Hkey; [|done].
      apply subscript_key_of_line in Hkey. congruence.
  - destruct (cell_get cells k) as [[v|e]|].
    + left. by exists v.
    + right. by exists e.
    + right. by eexists.
Qed.



Lemma scan_keys k lines : ∀ acc,
  (∀ l e, l ∈ lines → line_uuid k l = Raise e →
          exn_class e = "JSONDecodeError") →
  scan k lines acc = Ok (list_to_set (uuid_of <$> store_keys k lines) ∪ acc).
Proof.
  induction lines as [|l lines IH]; intros acc Hgood.
  - simpl. f_equal. set_solver.
  - assert (Hrest : ∀ l' e, l' ∈ lines → line_uuid k l' = Raise e →
                            exn_class e = "JSONDecodeError")
      by (intros l' e Hin; apply Hgood; by right).
    cbn [scan]. unfold store_keys. cbn [omap list_omap].
    destruct (line_uuid_cases k l) as [(v & -> & ->)|(e & -> & Hraise)].
    + rewrite IH by done. cbn [fmap list_fmap list_to_set]. f_equal.
      unfold store_keys. set_solver.
    + rewrite Hraise.
      rewrite (proj2 (is_JSONDecodeError_true e)) by (apply (Hgood l); [by left|done]).
      by apply IH.
Qed.


Lemma scan_returns_good k lines : ∀ acc processed,
  scan k lines acc = Ok processed →
  ∀ l e, l ∈ lines → line_uuid k l = Raise e → exn_class e = "JSONDecodeError".
Proof.
  induction lines as [|l lines IH]; intros acc processed Hscan l' e Hin Hraise.
  - by apply elem_of_nil in Hin.
  - cbn [scan] in Hscan. apply elem_of_cons in Hin as [->|Hin].
    + rewrite Hraise in Hscan.
      destruct (is_JSONDecodeError e) eqn:Hclass; [|done].
      by apply is_JSONDecodeError_true.
    + destruct (line_uuid k l) as [u|e0]; [by apply (IH _ _ Hscan l')|].
      destruct (is_JSONDecodeError e0); [by apply (IH _ _ Hscan l')|done].
Qed.

Lemma scan_returns k lines acc processed :
  scan k lines acc = Ok processed →
  processed = list_to_set (uuid_of <$> store_keys k lines) ∪ acc.
Proof.
  intros Hscan. pose proof (scan_returns_good _ _ _ _ Hscan) as Hgood.
  rewrite scan_keys in Hscan by done. by injection Hscan as <-.
Qed.


Lemma load_returns file k processed :
  load_processed_uuids file k = Ok processed →
  processed = list_to_set (uuid_of <$> store_keys k (default [] file)).
Proof.
  destruct file as [lines|]; simpl.
  - intros ->%scan_returns. set_solver.
  - by intros [= <-].
Qed.

End StoreFacts.



(** ** Per-item processing *)

Section ItemFacts.
Import Store Item.
Context {builtins : Builtins}.

Lemma gather_all_ok (g : nat → agent_run) (l : list nat) :
  (∀ i, i ∈ l → ∃ memory, g i = AgentRunOk memory) →
  gather (map (λ i, get_agent_run (g i)) l) = Ok (map (λ i, payload (g i)) l) ∧
  existsb is_None (map (λ i, payload (g i)) l) = false.
Proof.
  induction l as [|i l IH]; intros Hok; [done|].
  destruct (Hok i) as [memory Hi]; [by left|].
  destruct IH as [IHg IHn]; [intros j Hj; apply Hok; by right|].
  cbn [map gather existsb]. rewrite IHg, IHn, Hi. done.
Qed.

Lemma gather_one_none (g : nat → agent_run) (l : list nat) i vs :
  i ∈ l → get_agent_run (g i) = Ok VNone →
  gather (map (λ i, get_agent_run (g i)) l) = Ok vs →
  existsb is_None vs = true.
Proof.
  revert vs. induction l as [|j l IH]; intros vs Hin Hnone Hg.
  - by apply elem_of_nil in Hin.
  - cbn [map gather] in Hg.
    destruct (get_agent_run (g j)) as [v|e] eqn:Hj; [|done].
    destruct (gather _) as [vs'|e] eqn:Hrest; [|done].
    injection Hg as <-. cbn [existsb].
    apply elem_of_cons in Hin as [->|Hin].
    + rewrite Hnone in Hj. injection Hj as <-. done.
    + rewrite (IH vs' Hin Hnone eq_refl). apply orb_true_r.
Qed.

Lemma gather_no_none (g : nat → agent_run) (l : list nat) vs :
  gather (map (λ i, get_agent_run (g i)) l) = Ok vs →
  existsb is_None vs = false →
  ∀ i, i ∈ l → ∃ memory, g i = AgentRunOk memory.
Proof.
  revert vs. induction l as [|j l IH]; intros vs Hg Hnone i Hin.
  - by apply elem_of_nil in Hin.
  - cbn [map gather] in Hg.
    destruct (g j) as [e|e|memory] eqn:Hj; cbn [get_agent_run] in Hg; [done| |].
    + destruct (gather _); [|done]. injection Hg as <-. done.
    + destruct (gather _) as [vs'|e] eqn:Hrest; [|done].
      injection Hg as <-. cbn [existsb is_None orb] in Hnone.
      apply elem_of_cons in Hin as [->|Hin]; [by eexists|].
      by apply (IH vs').
Qed.

Lemma gather_length rs : ∀ vs, gather rs = Ok vs → length vs = length rs.
Proof.
  induction rs as [|[v|e] rs IH]; intros vs; simpl; [by intros [= <-]| |done].
  destruct (gather rs) as [vs'|]; [|done]. intros [= <-]. simpl. by rewrite (IH vs').
Qed.

Lemma append_changes {A} (l : list A) x : l ++ [x] ≠ l.
Proof. intros Heq. apply (f_equal length) in Heq. rewrite length_app in Heq. simpl in Heq. lia. Qed.

Variables (a : args) (example : dict) (agents : string → nat → agent_run).
Variable file : list line.

(** C1. [process_example] with fan-out [N]: if one of the [N] agent runs
    returns [None], the output file is left as it was and [None] is
    returned; the file changes only when the prompt column is there and
    all [N] runs ended well; and in that case exactly one record, the
    item's fields with the [N] generations, is appended. *)
Theorem C1_all_or_nothing_persistence :
  let N := Z.to_nat (num_generations a) in
  (∀ task i,
     subscript (VDict example) (prompt_column a) = Ok task →
     (i < N)%nat →
     get_agent_run (agents (make_prompt task) i) = Ok VNone →
     process_example a example agents file = (Ok None, file)) ∧
  (snd (process_example a example agents file) ≠ file →
   ∃ task,
     subscript (VDict example) (prompt_column a) = Ok task ∧
     ∀ i, (i < N)%nat → ∃ memory, agents (make_prompt task) i = AgentRunOk memory) ∧
  (∀ task,
     subscript (VDict example) (prompt_column a) = Ok task →
     (∀ i, (i < N)%nat → ∃ memory, agents (make_prompt task) i = AgentRunOk memory) →
     let record :=
       make_result example
         (map (λ i, payload (agents (make_prompt task) i)) (seq 0 N)) in
     process_example a example agents file =
       (Ok (Some record), file ++ [Parsed (VDict record)])).
Proof.
  intros N. split; [|split].
  - intros task i Htask Hi Hnone. unfold process_example. rewrite Htask.
    fold N.
    destruct (gather _) as [vs|e] eqn:Hg; [|done].
    rewrite (gather_one_none (agents (make_prompt task)) (seq 0 N) i vs); try done.
    apply elem_of_seq. lia.
  - unfold process_example.
    destruct (subscript (VDict example) (prompt_column a)) as [task|e] eqn:Htask;
      [|done].
    fold N. destruct (gather _) as [vs|e] eqn:Hg; [|done].
    destruct (existsb is_None vs) eqn:Hnone; [done|].
    intros _. exists task. split; [done|]. intros i Hi.
    apply (gather_no_none (agents (make_prompt task)) (seq 0 N) vs Hg Hnone).
    apply elem_of_seq. lia.
  - intros task Htask Hok record. unfold process_example. rewrite Htask.
    fold N.
    destruct (gather_all_ok (agents (make_prompt task)) (seq 0 N)) as [Hg Hn].
    { intros i Hi. apply Hok. apply elem_of_seq in Hi. lia. }
    rewrite Hg, Hn. done.
Qed.

Lemma process_example_appends :
  snd (process_example a example agents file) = file ∨
  ∃ generations,
    length generations = Z.to_nat (num_generations a) ∧
    existsb is_None generations = false ∧
    snd (process_example a example agents file) =
      file ++ [Parsed (VDict (make_result example generations))].
Proof.
  unfold process_example.
  destruct (subscript _ _); [|by left].
  destruct (gather _) as [vs|] eqn:Hg; [|by left].
  destruct (existsb _ _) eqn:Hnone; [by left|]. right. exists vs.
  apply gather_length in Hg. rewrite length_map, length_seq in Hg. done.
Qed.
End ItemFacts.

Lemma C1_witness :
  @Item.process_example Samples.plain (Samples.cli 4 2) (Samples.item "A")
     Samples.agents_second_fails [] = (Ok None, []).
Proof.
  refine (proj1 (@C1_all_or_nothing_persistence Samples.plain (Samples.cli 4 2)
                   (Samples.item "A") Samples.agents_second_fails [])
                (VStr "solve A") 1%nat _ _ _).
  - reflexivity.
  - simpl. lia.
  - reflexivity.
Defined.

(** ** The scheduling loop *)

Section RunnerFacts.
Import Store Item Runner.
Context {builtins : Builtins}.
Variable a : args.

Lemma current_with_pc c s : current (with_pc c s) = current s.
Proof. done. Qed.

Lemma current_rebind pending s : current (rebind pending s) = pending.
Proof.
  unfold current, rebind. simpl.
  by rewrite lookup_app_r, Nat.sub_diag by lia.
Qed.

Lemma current_create_task example rest s :
  (active_tasks s < length (sets s))%nat →
  current (create_task example rest s) = {[length (tasks s)]} ∪ current s.
Proof.
  intros Hlt. unfold current, create_task. simpl.
  rewrite list_lookup_alter, decide_True by done.
  destruct (lookup_lt_is_Some_2 _ _ Hlt) as [fs ->]. done.
Qed.

Lemma bounded_while_test example rest s :
  (Z.of_nat (size (current s)) ≤ Z.max 0 (max_concurrent a))%Z →
  (active_tasks s < length (sets s))%nat →
  running s ⊆ current s →
  bounded a (while_test a example rest s).
Proof.
  intros Hsize Hlt Hrun. unfold while_test.
  destruct (decide _) as [Hfull|Hroom].
  - destruct (decide (current s = ∅)); split; simpl; try done.
  - split; simpl.
    + fold (current (create_task example rest s)).
      rewrite current_create_task by done.
      pose proof (size_union_alt {[length (tasks s)]} (current s)) as Hu.
      assert (size (current s ∖ {[length (tasks s)]}) ≤ size (current s))%nat
        by (apply subseteq_size; set_solver).
      rewrite size_singleton in Hu. lia.
    + by rewrite length_alter.
    + fold (current (create_task example rest s)).
      rewrite current_create_task by done. set_solver.
    + done.
Qed.

Lemma bounded_with_pc c s :
  bounded a s →
  match c with WaitFirst _ _ _ => False | _ => True end →
  bounded a (with_pc c s).
Proof. intros [] Hc. split; try done. simpl. by destruct c. Qed.

Lemma current_discard t i s :
  current {| pc := pc s; processed_uuids := processed_uuids s;
             sets := alter (λ fs, fs ∖ {[t]}) i (sets s);
             active_tasks := active_tasks s; tasks := tasks s;
             running := running s; callbacks := delete t (callbacks s);
             output_file := output_file s |}
  = if decide (i = active_tasks s) then current s ∖ {[t]} else current s.
Proof.
  unfold current. simpl. rewrite list_lookup_alter.
  destruct (decide (i = active_tasks s)) as [->|]; [|done].
  destruct (sets s !! active_tasks s); simpl; set_solver.
Qed.

Lemma bounded_main_step s s' :
  bounded a s → main_step a s = Some s' → bounded a s'.
Proof.
  intros Hb Hstep. pose proof Hb as [Hsize Hlt Hrun Hwait].
  unfold main_step in Hstep.
  destruct (pc s) as [[|example rest]|example rest fs|fs| |e] eqn:Hpc;
    try discriminate.
  - destruct (decide _); injection Hstep as <-; by apply bounded_with_pc.
  - destruct (subscript _ _) as [v|e]; [|injection Hstep as <-; by apply bounded_with_pc].
    destruct (decide _); injection Hstep as <-;
      [by apply bounded_with_pc | by apply bounded_while_test].
  - destruct (decide (fs ⊆ running s)); [done|]. injection Hstep as <-.
    destruct Hwait as [Hsub Hfs].
    apply bounded_while_test.
    + rewrite current_rebind.
      assert (size (fs ∩ running s) ≤ size fs)%nat
        by (apply subseteq_size; set_solver).
      lia.
    + simpl. rewrite length_app. simpl. lia.
    + rewrite current_rebind. simpl. set_solver.
  - destruct (decide _); [|done]. injection Hstep as <-. by apply bounded_with_pc.
Qed.

Lemma bounded_step l s s' :
  bounded a s → step a l s = Some s' → bounded a s'.
Proof.
  intros Hb Hstep. destruct l as [|t agents|t]; simpl in Hstep.
  - by apply (bounded_main_step s).
  - destruct Hb as [Hsize Hlt Hrun Hwait]. unfold finish in Hstep.
    destruct (decide (t ∈ running s)); [|done].
    destruct (tasks s !! t); [|done]. injection Hstep as <-.
    split; simpl; try done.
    + change (running s ∖ {[t]} ⊆ current s). set_solver.
    + destruct (pc s); try done. destruct Hwait. split; [set_solver|done].
  - destruct Hb as [Hsize Hlt Hrun Hwait]. unfold discard in Hstep.
    destruct (decide (t ∈ running s)) as [|Hdone]; [done|].
    destruct (callbacks s !! t) as [i|]; [|done]. injection Hstep as <-.
    split.
    + rewrite current_discard. destruct (decide _); [|done].
      assert (size (current s ∖ {[t]}) ≤ size (current s))%nat
        by (apply subseteq_size; set_solver).
      lia.
    + simpl. by rewrite length_alter.
    + rewrite current_discard. simpl. destruct (decide _); set_solver.
    + simpl. done.
Qed.

Lemma bounded_start file dataset : bounded a (start a file dataset).
Proof.
  assert (Hcur : current (start a file dataset) = ∅)
    by (unfold start; by destruct (load_processed_uuids _ _)).
  split.
  - rewrite Hcur, size_empty. lia.
  - unfold start. destruct (load_processed_uuids _ _); simpl; lia.
  - unfold start. destruct (load_processed_uuids _ _); simpl; set_solver.
  - unfold start. by destruct (load_processed_uuids _ _).
Qed.

Lemma reachable_bounded file dataset s :
  reachable a file dataset s → bounded a s.
Proof.
  induction 1 as [|s l s' _ IH Hstep]; [apply bounded_start|].
  by apply (bounded_step l s).
Qed.

(** *** Which examples are scheduled *)

Lemma scheduled_while_test file dataset example rest s0 :
  load_processed_uuids file (uuid_column a) = Ok (processed_uuids s0) →
  tasks s0 ++ example :: rest `sublist_of` dataset →
  tasks s0 ++ filter (λ e, unprocessed a (processed_uuids s0) e) (example :: rest)
    = filter (λ e, unprocessed a (processed_uuids s0) e) dataset →
  (∀ e, e ∈ tasks s0 → unprocessed a (processed_uuids s0) e) →
  unprocessed a (processed_uuids s0) example →
  scheduled a file dataset (while_test a example rest s0).
Proof.
  intros Hload Hsub Hexact Hun He. unfold while_test.
  destruct (decide _) as [Hfull|Hroom]; [destruct (decide _)|].
  - split; simpl; rewrite ?Hload; try done.
    etrans; [|exact Hsub]. apply sublist_app; [done|apply sublist_nil_l].
  - split; simpl; rewrite ?Hload; done.
  - split; simpl; rewrite ?Hload; try done.
    + by rewrite <- app_assoc.
    + rewrite <- app_assoc. simpl. rewrite <- Hexact.
      by rewrite filter_cons_True.
    + intros e [Hin| ->%list_elem_of_singleton]%elem_of_app; [by apply Hun|done].
Qed.

Lemma scheduled_main_step file dataset s s' :
  scheduled a file dataset s → main_step a s = Some s' →
  scheduled a file dataset s'.
Proof.
  intros [Hscan Hsub Hexact Hun Hwait] Hstep. unfold main_step in Hstep.
  destruct (load_processed_uuids file (uuid_column a)) as [processed|e0] eqn:Hload.
  2:{ destruct Hscan as [Hpc _]. by rewrite Hpc in Hstep. }
  destruct (pc s) as [[|example rest]|example rest fs|fs| |e] eqn:Hpc;
    try discriminate; simpl in Hsub, Hexact.
  - destruct (decide _); injection Hstep as <-;
      split; simpl; rewrite ?Hload; done.
  - destruct (subscript _ _) as [v|e] eqn:Hkey.
    2:{ injection Hstep as <-. split; simpl; rewrite ?Hload; try done.
        etrans; [|exact Hsub]. apply sublist_app; [done|apply sublist_nil_l]. }
    simpl in Hkey. destruct (dict_get example (uuid_column a)) as [v'|] eqn:Hget;
      [injection Hkey as ->|done].
    destruct (decide (uuid_of v ∈ processed_uuids s)) as [Hin|Hnew];
      injection Hstep as <-.
    + split; simpl; rewrite ?Hload; try done.
      * etrans; [|exact Hsub]. apply sublist_app; [done|by apply sublist_cons].
      * rewrite <- Hexact. rewrite filter_cons_False; [done|].
        unfold unprocessed. rewrite Hget. by intros Hb%bool_decide_unpack.
    + apply scheduled_while_test; try done; [by rewrite Hload, Hscan|].
      unfold unprocessed. rewrite Hget. by rewrite bool_decide_true.
  - destruct (decide _); [done|]. injection Hstep as <-.
    apply scheduled_while_test; simpl; try done. by rewrite Hload, Hscan.
  - destruct (decide _); [|done]. injection Hstep as <-.
    split; simpl; rewrite ?Hload; done.
Qed.

Lemma scheduled_step file dataset l s s' :
  scheduled a file dataset s → step a l s = Some s' →
  scheduled a file dataset s'.
Proof.
  intros Hs Hstep. destruct l as [|t agents|t]; simpl in Hstep.
  - by apply (scheduled_main_step file dataset s).
  - unfold finish in Hstep. destruct (decide _); [|done].
    destruct (tasks s !! t); [|done]. injection Hstep as <-.
    destruct Hs. by split.
  - unfold discard in Hstep. destruct (decide _); [done|].
    destruct (callbacks s !! t); [|done]. injection Hstep as <-.
    destruct Hs. by split.
Qed.

Lemma scheduled_start file dataset : scheduled a file dataset (start a file dataset).
Proof.
  unfold start.
  destruct (load_processed_uuids file (uuid_column a)) as [processed|e] eqn:Hload;
    split; simpl; rewrite ?Hload; try done;
    try apply sublist_nil_l; intros example Hin; by apply elem_of_nil in Hin.
Qed.

Lemma reachable_scheduled file dataset s :
  reachable a file dataset s → scheduled a file dataset s.
Proof.
  induction 1 as [|s l s' _ IH Hstep]; [apply scheduled_start|].
  by apply (scheduled_step file dataset l s).
Qed.

Lemma unprocessed_key processed example :
  unprocessed a processed example →
  ∃ key, dict_get example (uuid_column a) = Some key ∧ uuid_of key ∉ processed.
Proof.
  unfold unprocessed. destruct (dict_get example (uuid_column a)) as [key|]; [|done].
  intros Hb%bool_decide_unpack. by exists key.
Qed.

Lemma reachable_run file dataset ls : ∀ s s',
  reachable a file dataset s → run a ls s = Some s' →
  reachable a file dataset s'.
Proof.
  induction ls as [|l ls IH]; intros s s' Hs; simpl.
  - by intros [= <-].
  - destruct (step a l s) as [s1|] eqn:Hstep; [|done].
    apply IH. by apply (reachable_step a file dataset s l).
Qed.

Lemma reachable_run_default file dataset ls :
  reachable a file dataset
    (default (start a file dataset) (run a ls (start a file dataset))).
Proof.
  destruct (run a ls (start a file dataset)) as [s|] eqn:Hrun; simpl.
  - apply (reachable_run file dataset ls (start a file dataset)); [constructor|done].
  - constructor.
Qed.

(** C2. On a rerun over an output file whose records carry the keys [K]:
    the tasks created are examples of the input, in input order; every
    one of them has a key that is not in [K], so an example whose key is
    in [K] gets no task; and when [main] reaches its end the tasks are
    exactly the examples whose key digest is not among those of [K]. *)
Theorem C2_resume_correctness file dataset s :
  reachable a file dataset s →
  let K := store_keys (uuid_column a) (default [] file) in
  tasks s `sublist_of` dataset ∧
  (∀ example, example ∈ tasks s →
     ∃ key, dict_get example (uuid_column a) = Some key ∧ key ∉ K) ∧
  (∀ example key, dict_get example (uuid_column a) = Some key → key ∈ K →
     example ∉ tasks s) ∧
  (pc s = Closed →
   tasks s = filter (λ e, unprocessed a (list_to_set (uuid_of <$> K)) e) dataset).
Proof.
  intros Hreach K.
  destruct (reachable_scheduled _ _ _ Hreach) as [Hscan Hsub Hexact Hun Hwait].
  assert (Hfresh : ∀ example, example ∈ tasks s →
    ∃ key, dict_get example (uuid_column a) = Some key ∧ key ∉ K).
  { intros example Hin.
    destruct (unprocessed_key _ _ (Hun example Hin)) as (key & Hkey & Hnew).
    exists key. split; [done|]. intros HK. apply Hnew.
    destruct (load_processed_uuids file (uuid_column a)) as [processed|e] eqn:Hload.
    - rewrite Hscan, (load_returns _ _ _ Hload).
      apply elem_of_list_to_set, list_elem_of_fmap. by exists key.
    - destruct Hscan as [_ Hnil]. rewrite Hnil in Hin. by apply elem_of_nil in Hin. }
  split; [|split; [done|split]].
  - etrans; [|exact Hsub]. apply sublist_inserts_r. done.
  - intros example key Hkey HK Hin.
    destruct (Hfresh example Hin) as (key' & Hkey' & Hnot). congruence.
  - intros Hpc. rewrite Hpc in Hexact, Hscan. simpl in Hexact.
    rewrite app_nil_r in Hexact. rewrite Hexact.
    destruct (load_processed_uuids file (uuid_column a)) as [processed|e] eqn:Hload.
    + by rewrite Hscan, (load_returns _ _ _ Hload).
    + by destruct Hscan.
Qed.

(** *** What the run writes *)

Lemma persisted_same file s s' :
  tasks s' = tasks s → running s' = running s →
  output_file s' = output_file s →
  persisted a file s → persisted a file s'.
Proof.
  intros Ht Hr Ho [Hids Hrec]. split; rewrite ?Ht, ?Hr, ?Ho; done.
Qed.

Lemma persisted_while_test file example rest s :
  persisted a file s → persisted a file (while_test a example rest s).
Proof.
  intros Hp. unfold while_test.
  destruct (decide _); [destruct (decide _); by apply (persisted_same file s)|].
  destruct Hp as [Hids (ws & records & Hnd & Hdone & Hout & Hrec)]. split; simpl.
  - intros t [->%elem_of_singleton|Hin%Hids]%elem_of_union;
      rewrite length_app; simpl; lia.
  - exists ws, records. repeat split; try done.
    + intros t Hin [->%elem_of_singleton|Hrun]%elem_of_union; [|by apply (Hdone t)].
      apply list_elem_of_lookup in Hin as [i Hi].
      destruct (Forall2_lookup_l _ _ _ _ _ Hrec Hi)
        as (r & _ & example' & gens & Hlook & _).
      apply lookup_lt_Some in Hlook. lia.
    + eapply Forall2_impl; [exact Hrec|].
      intros t r (example' & gens & Hlook & Hrest). exists example', gens.
      split; [|done]. by apply lookup_app_l_Some.
Qed.
Lemma persisted_step file l s s' :
  persisted a file s → step a l s = Some s' → persisted a file s'.
Proof.
  intros Hp Hstep. destruct l as [|t agents|t]; simpl in Hstep.
  - unfold main_step in Hstep.
    destruct (pc s) as [[|example rest]|example rest fs|fs| |e]; try discriminate.
    + destruct (decide _); injection Hstep as <-; by apply (persisted_same file s).
    + destruct (subscript _ _);
        [|injection Hstep as <-; by apply (persisted_same file s)].
      destruct (decide _); injection Hstep as <-;
        [by apply (persisted_same file s)|by apply persisted_while_test].
    + destruct (decide _); [done|]. injection Hstep as <-.
      apply persisted_while_test. by apply (persisted_same file s).
    + destruct (decide _); [|done]. injection Hstep as <-.
      by apply (persisted_same file s).
  - unfold finish in Hstep. destruct (decide (t ∈ running s)) as [Hrun|]; [|done].
    destruct (tasks s !! t) as [example|] eqn:Hlook; [|done].
    injection Hstep as <-.
    destruct Hp as [Hids (ws & records & Hnd & Hdone & Hout & Hrec)].
    split; simpl; [intros t' Hin; apply Hids; set_solver|].
    destruct (process_example_appends a example agents (output_file s))
      as [->|(generations & Hlen & Hnone & ->)].
    + exists ws, records. repeat split; try done.
      intros t' Hin. specialize (Hdone t' Hin). set_solver.
    + exists (ws ++ [t]), (records ++ [Parsed (VDict (make_result example generations))]).
      repeat split.
      * apply NoDup_app. repeat split; [done| |apply NoDup_singleton].
        intros t' Hin ->%list_elem_of_singleton. by apply (Hdone t).
      * intros t' [Hin| ->%list_elem_of_singleton]%elem_of_app;
          [specialize (Hdone t' Hin)|]; set_solver.
      * by rewrite Hout, app_assoc.
      * apply Forall2_app; [done|]. constructor; [|constructor].
        by exists example, generations.
  - unfold discard in Hstep. destruct (decide _); [done|].
    destruct (callbacks s !! t); [|done]. injection Hstep as <-.
    by apply (persisted_same file s).
Qed.

Lemma persisted_start file dataset : persisted a file (start a file dataset).
Proof.
  unfold start. destruct (load_processed_uuids _ _); split; simpl;
    try (intros t Hin; by apply elem_of_empty in Hin);
    exists [], []; rewrite app_nil_r; repeat split;
    try constructor; intros t Hin; by apply elem_of_nil in Hin.
Qed.

Lemma reachable_persisted file dataset s :
  reachable a file dataset s → persisted a file s.
Proof.
  induction 1 as [|s l s' _ IH Hstep]; [apply persisted_start|].
  by apply (persisted_step file l s).
Qed.

(** All-or-nothing at the level of the run: whatever the file holds beyond
    what was found at startup are records of input examples, each with
    [num_generations] generations none of which is [None]. *)
Lemma run_appends_complete_records file dataset s :
  reachable a file dataset s →
  ∃ records,
    output_file s = default [] file ++ records ∧
    Forall (λ r, ∃ example generations,
              example ∈ dataset ∧
              length generations = Z.to_nat (num_generations a) ∧
              existsb is_None generations = false ∧
              r = Parsed (VDict (make_result example generations)))
           records.
Proof.
  intros Hreach.
  destruct (reachable_scheduled _ _ _ Hreach) as [_ Hsub _ _ _].
  destruct (reachable_persisted _ _ _ Hreach)
    as [_ (ws & records & _ & _ & Hout & Hrec)].
  exists records. split; [done|]. clear Hout.
  induction Hrec as [|t r ws records Hr _ IH]; [constructor|].
  constructor; [|exact IH].
  destruct Hr as (example & generations & Hlook & Hlen & Hnone & ->).
  exists example, generations. repeat split; try done.
  apply (sublist_subseteq _ _ Hsub), elem_of_app. left.
  by apply list_elem_of_lookup_2 in Hlook.
Qed.

Lemma key_of_result example generations :
  uuid_column a ∉ ["generations"; "finish_reasons"; "api_metadata"] →
  key_of_line (uuid_column a) (Parsed (VDict (make_result example generations)))
    = dict_get example (uuid_column a).
Proof.
  intros Hcol. simpl. unfold make_result.
  rewrite !dict_get_set_ne; [done|intros Heq; apply Hcol; rewrite <- Heq..];
    set_solver.
Qed.

(** C4 (amended). When the uuid column is not one of the three fields
    the record adds, the keys in the file found at startup are pairwise
    distinct and so are the keys of the input, the keys in the output file
    are pairwise distinct in every state the run can reach. *)
Theorem C4_key_uniqueness file dataset s :
  uuid_column a ∉ ["generations"; "finish_reasons"; "api_metadata"] →
  NoDup (store_keys (uuid_column a) (default [] file)) →
  NoDup (omap (λ example, dict_get example (uuid_column a)) dataset) →
  reachable a file dataset s →
  NoDup (store_keys (uuid_column a) (output_file s)).
Proof.
  intros Hcol Hstore Hinput Hreach.
  destruct (reachable_scheduled _ _ _ Hreach) as [Hscan Hsub _ Hun _].
  destruct (reachable_persisted _ _ _ Hreach)
    as [_ (ws & records & Hnd & _ & -> & Hrec)].
  set (key := λ example : dict, dict_get example (uuid_column a)).
  assert (Htasks : NoDup (omap key (tasks s))).
  { apply (sublist_NoDup _ (omap key dataset)); [exact Hinput|].
    apply sublist_omap. etrans; [|exact Hsub]. by apply sublist_inserts_r. }
  assert (Hkeys : Forall2 (λ t k, ∃ example,
            tasks s !! t = Some example ∧ key example = Some k ∧
            uuid_of k ∉ processed_uuids s)
          ws (store_keys (uuid_column a) records)).
  { clear Hnd. induction Hrec as [|t r ws records Hr _ IH]; [constructor|].
    destruct Hr as (example & generations & Hlook & _ & _ & ->).
    destruct (unprocessed_key _ _ (Hun example (list_elem_of_lookup_2 _ _ _ Hlook)))
      as (k & Hk & Hnew).
    unfold store_keys. cbn [omap list_omap].
    rewrite (key_of_result _ _ Hcol), Hk. constructor; [|exact IH].
    by exists example. }
  unfold store_keys. rewrite omap_app. apply NoDup_app. repeat split.
  - exact Hstore.
  - intros k Hold Hnew. apply list_elem_of_lookup in Hnew as [i Hi].
    destruct (Forall2_lookup_r _ _ _ _ _ Hkeys Hi)
      as (t & _ & example & Hlook & _ & Hfresh).
    apply Hfresh.
    destruct (load_processed_uuids file (uuid_column a)) as [processed|e] eqn:Hload.
    + rewrite Hscan, (load_returns _ _ _ Hload).
      apply elem_of_list_to_set, list_elem_of_fmap. by exists k.
    + destruct Hscan as [_ Hnil]. by rewrite Hnil in Hlook.
  - eapply Forall2_NoDup; [|exact Hkeys|exact Hnd].
    intros t t' k (e1 & H1 & Hk1 & _) (e2 & H2 & Hk2 & _).
    by apply (omap_lookup_inj key (tasks s) t t' e1 e2 k).
Qed.

(** A move that creates a task is a move of [main] made with room in the
    set. *)
Lemma create_task_room l s s' :
  bounded a s → step a l s = Some s' →
  (length (tasks s) < length (tasks s'))%nat →
  (Z.of_nat (size (running s)) < max_concurrent a)%Z ∧
  tasks s' = tasks s ++ drop (length (tasks s)) (tasks s') ∧
  length (tasks s') = S (length (tasks s)).
Proof.
  intros [Hsize Hlt Hrun Hwait] Hstep Hgrow.
  assert (Hwt : ∀ example rest s0,
    tasks s0 = tasks s → running s0 = running s → running s0 ⊆ current s0 →
    (length (tasks s0) < length (tasks (while_test a example rest s0)))%nat →
    (Z.of_nat (size (running s)) < max_concurrent a)%Z ∧
    tasks (while_test a example rest s0) = tasks s ++ [example]).
  { intros example rest s0 Ht Hr Hsub. unfold while_test.
    destruct (decide _) as [|Hroom].
    - destruct (decide _); simpl; lia.
    - intros _. simpl. rewrite Ht. split; [|done].
      assert (size (running s0) ≤ size (current s0))%nat by by apply subseteq_size.
      rewrite <- Hr. lia. }
  destruct l as [|t agents|t]; simpl in Hstep.
  - unfold main_step in Hstep.
    destruct (pc s) as [[|example rest]|example rest fs|fs| |e] eqn:Hpc;
      try discriminate.
    + destruct (decide _); injection Hstep as <-; simpl in Hgrow; lia.
    + destruct (subscript _ _) as [v|e]; [|injection Hstep as <-; simpl in Hgrow; lia].
      destruct (decide _); injection Hstep as <-; [simpl in Hgrow; lia|].
      destruct (Hwt example rest s eq_refl eq_refl Hrun Hgrow) as [? Ht].
      rewrite Ht, drop_app_length, length_app. simpl. split; [done|]. split; [done|lia].
    + destruct (decide (fs ⊆ running s)); [done|]. injection Hstep as <-.
      destruct Hwait as [Hsub _].
      destruct (Hwt example rest (rebind (fs ∩ running s) s) eq_refl eq_refl) as [? Ht];
        [rewrite current_rebind; simpl; set_solver|done|].
      rewrite Ht, drop_app_length, length_app. simpl. split; [done|]. split; [done|lia].
    + destruct (decide _); [|done]. injection Hstep as <-. simpl in Hgrow. lia.
  - unfold finish in Hstep. destruct (decide _); [|done].
    destruct (tasks s !! t); [|done]. injection Hstep as <-. simpl in Hgrow. lia.
  - unfold discard in Hstep. destruct (decide _); [done|].
    destruct (callbacks s !! t); [|done]. injection Hstep as <-. simpl in Hgrow. lia.
Qed.

(** C3. With a limit [C >= 0]: in every state the run can reach, whatever
    the input and the order in which tasks finish and their callbacks
    run, the set bound to [active_tasks] has at most [C] members and
    contains every task still in flight, so at most [C] item tasks are in
    flight; and a move that creates a task is made with fewer than [C]
    tasks in flight and leaves at most [C] in the set. *)
Theorem C3_at_most_C_concurrency file dataset s :
  (0 ≤ max_concurrent a)%Z →
  reachable a file dataset s →
  (Z.of_nat (size (current s)) ≤ max_concurrent a)%Z ∧
  running s ⊆ current s ∧
  (Z.of_nat (size (running s)) ≤ max_concurrent a)%Z ∧
  (∀ l s', step a l s = Some s' →
     (length (tasks s) < length (tasks s'))%nat →
     (Z.of_nat (size (running s)) < max_concurrent a)%Z ∧
     (Z.of_nat (size (current s')) ≤ max_concurrent a)%Z).
Proof.
  intros HC Hreach. pose proof (reachable_bounded _ _ _ Hreach) as Hb.
  pose proof Hb as [Hsize Hlt Hrun Hwait].
  assert (Hle : (size (running s) ≤ size (current s))%nat) by by apply subseteq_size.
  split; [lia|]. split; [done|]. split; [lia|].
  intros l s' Hstep Hgrow. split.
  - by destruct (create_task_room l s s' Hb).
  - pose proof (bounded_step l s s' Hb Hstep) as [Hsize' _ _ _]. lia.
Qed.
End RunnerFacts.

Lemma C2_witness : Runner.tasks Samples.resumed = [Samples.item "C"].
Proof.
  refine (eq_trans
    (proj2 (proj2 (proj2
      (@C2_resume_correctness Samples.plain (Samples.cli 1 2)
         Samples.file_AB Samples.input_ABC Samples.resumed _))) _) _).
  - apply reachable_run_default.
  - vm_compute. reflexivity.
  - vm_compute. reflexivity.
Defined.

Lemma C3_witness :
  (Z.of_nat (size (Runner.current Samples.waiting)) ≤ 1)%Z.
Proof.
  refine (proj1 (@C3_at_most_C_concurrency Samples.plain (Samples.cli 1 1)
                   None Samples.input_AA Samples.waiting _ _)).
  - simpl. lia.
  - apply reachable_run_default.
Defined.

Lemma C4_witness :
  NoDup (Store.store_keys "uuid" (Runner.output_file Samples.resumed)).
Proof.
  refine (@C4_key_uniqueness Samples.plain (Samples.cli 1 2)
            Samples.file_AB Samples.input_ABC Samples.resumed _ _ _ _).
  - simpl. intros Hin.
    repeat (apply elem_of_cons in Hin as [Hin|Hin]; [discriminate|]).
    by apply elem_of_nil in Hin.
  - vm_compute. repeat (apply NoDup_cons; split);
      [| |apply NoDup_nil; exact I]; intros Hin;
      repeat (apply elem_of_cons in Hin as [Hin|Hin]; [discriminate|]);
      by apply elem_of_nil in Hin.
  - vm_compute. repeat (apply NoDup_cons; split);
      [| | |apply NoDup_nil; exact I]; intros Hin;
      repeat (apply elem_of_cons in Hin as [Hin|Hin]; [discriminate|]);
      by apply elem_of_nil in Hin.
  - apply reachable_run_default.
Defined.

(** C4 (as stated) fails on an input that names a key twice: the set of
    processed keys is read once at startup and never extended, so both
    examples get a task, even with one item at a time, and the finished run
    leaves two records with the key A. The startup set is empty here, so
    the digest plays no part. *)
Lemma C4_counterexample :
  Runner.reachable (builtins := Samples.plain) (Samples.cli 1 1) None
    Samples.input_AA Samples.twice ∧
  Runner.pc Samples.twice = Runner.Closed ∧
  Store.store_keys "uuid" (Runner.output_file Samples.twice) = [VStr "A"; VStr "A"] ∧
  ¬ NoDup (Store.store_keys "uuid" (Runner.output_file Samples.twice)).
Proof.
  split; [apply reachable_run_default|].
  split; [vm_compute; reflexivity|].
  assert (Hkeys : Store.store_keys "uuid" (Runner.output_file Samples.twice)
                  = [VStr "A"; VStr "A"]) by (vm_compute; reflexivity).
  split; [exact Hkeys|]. rewrite Hkeys.
  intros Hnd%NoDup_cons_1_1. apply Hnd. by left.
Qed.

(** ** Reward scorers *)

Section RewardFacts.
Import Text Rewards.
Local Open Scope Q_scope.

Lemma lower_ascii_idem c : lower_ascii (lower_ascii c) = lower_ascii c.
Proof.
  destruct c as [[] [] [] [] [] [] [] []]; reflexivity.
Qed.

Lemma lower_idem s : lower (lower s) = lower s.
Proof. induction s as [|c s IH]; simpl; [done|]. by rewrite lower_ascii_idem, IH. Qed.

Lemma repetition_penalty_short ngram_size max_penalty c :
  (length (split (lower (content c))) < ngram_size)%nat →
  repetition_penalty ngram_size max_penalty c = 0.
Proof. intros Hshort. unfold repetition_penalty. by rewrite decide_True. Qed.

Lemma repetition_penalty_lower ngram_size max_penalty c :
  repetition_penalty ngram_size max_penalty (Build_completion (lower (content c)))
  = repetition_penalty ngram_size max_penalty c.
Proof. unfold repetition_penalty. simpl. by rewrite lower_idem. Qed.

Lemma assertEqual_singleton rewards expected :
  assertEqual rewards [expected] = true →
  ∃ reward, rewards = [reward] ∧ reward == expected.
Proof.
  destruct rewards as [|reward [|? ?]]; simpl; try done.
  - rewrite andb_true_r. intros Heq%Qeq_bool_iff. by exists reward.
  - by rewrite andb_false_r.
Qed.

Lemma repetition_penalty_by_coverage_short ngram_size max_penalty c :
  (length (split (lower (content c))) < ngram_size)%nat →
  repetition_penalty_by_coverage ngram_size max_penalty c = 0.
Proof. intros Hshort. unfold repetition_penalty_by_coverage. by rewrite decide_True. Qed.

Lemma repetition_penalty_by_coverage_lower ngram_size max_penalty c :
  repetition_penalty_by_coverage ngram_size max_penalty
    (Build_completion (lower (content c)))
  = repetition_penalty_by_coverage ngram_size max_penalty c.
Proof. unfold repetition_penalty_by_coverage. simpl. by rewrite lower_idem. Qed.

Lemma zipngram_lookup n words : ∀ j ng,
  (0 < n)%nat →
  zipngram n words !! j = Some ng ↔
  (j + n ≤ length words)%nat ∧ ng = take n (drop j words).
Proof.
  induction words as [|w words IH]; intros j ng Hn.
  - destruct n; [lia|]. simpl. split; [done|]. intros [Hle _]. lia.
  - destruct n as [|n]; [lia|]. cbn [zipngram].
    destruct (decide (S n ≤ length (w :: words))%nat) as [Hle|Hgt].
    + destruct j as [|j].
      * simpl. split; [intros [= <-]; split; [simpl in Hle; lia|done]|].
        by intros [_ ->].
      * cbn [lookup list_lookup drop]. rewrite IH by lia. simpl. split.
        -- intros [? ->]. split; [lia|done].
        -- intros [? ->]. split; [lia|done].
    + split; [done|]. intros [Hle _]. destruct Hgt. simpl in *. lia.
Qed.

Lemma repeated_positions_elem n ngrams : ∀ start seen i,
  i ∈ repeated_positions n start seen ngrams ↔
  ∃ j ng, ngrams !! j = Some ng ∧
          (start + j ≤ i < start + j + n)%nat ∧
          (ng ∈ seen ∨ ∃ j', (j' < j)%nat ∧ ngrams !! j' = Some ng).
Proof.
  induction ngrams as [|ng0 ngrams IH]; intros start seen i; cbn [repeated_positions].
  - split; [by intros ?%elem_of_nil|]. by intros (j & ng & ? & _).
  - rewrite elem_of_app, IH. split.
    + intros [Hhere|(j & ng & Hj & Hi & Hrep)].
      * destruct (decide (ng0 ∈ seen)) as [Hseen|]; [|by apply elem_of_nil in Hhere].
        apply elem_of_seq in Hhere. exists 0%nat, ng0.
        split; [done|]. split; [lia|]. by left.
      * exists (S j), ng. split; [done|]. split; [lia|].
        destruct Hrep as [[->|Hseen]%elem_of_cons|(j' & Hlt & Hj')].
        -- right. exists 0%nat. split; [lia|done].
        -- by left.
        -- right. exists (S j'). split; [lia|done].
    + intros (j & ng & Hj & Hi & Hrep). destruct j as [|j].
      * simpl in Hj. injection Hj as ->. left.
        destruct Hrep as [Hseen|(j' & Hlt & _)]; [|lia].
        rewrite decide_True by done. apply elem_of_seq. lia.
      * right. exists j, ng. split; [done|]. split; [lia|].
        destruct Hrep as [Hseen|(j' & Hlt & Hj')].
        -- left. by right.
        -- destruct j' as [|j'].
           ++ simpl in Hj'. injection Hj' as ->. left. by left.
           ++ right. exists j'. split; [lia|done].
Qed.

Lemma repeated_positions_covered n words i :
  i ∈ repeated_positions n 0 [] (zipngram n words) ↔ in_repeated_ngram n words i.
Proof.
  destruct (decide (n = 0)%nat) as [->|Hn].
  - split.
    + by destruct words; intros ?%elem_of_nil.
    + intros (j & j' & _ & Hi & _). lia.
  - rewrite repeated_positions_elem. unfold in_repeated_ngram. split.
    + intros (j & ng & Hj & Hi & [Hseen|(j' & Hlt & Hj')]);
        [by apply elem_of_nil in Hseen|].
      apply zipngram_lookup in Hj as [Hle ->]; [|lia].
      apply zipngram_lookup in Hj' as [_ Heq]; [|lia].
      exists j, j'. repeat split; try done; lia.
    + intros (j & j' & Hlt & Hi & Hle & Heq).
      exists j, (take n (drop j words)). split; [|split; [lia|]].
      * apply zipngram_lookup; [lia|done].
      * right. exists j'. split; [done|]. apply zipngram_lookup; [lia|].
        split; [lia|done].
Qed.

(** C7 (amended). The scoring rule that every assertion of
    [TestRepetitionPenaltyReward] agrees with lowercases the completion;
    scores 0 when it has fewer than [ngram_size] words; and otherwise
    scales [max_penalty] by the share of its words that lie in an n-gram
    repeating an earlier one: 4/5 * -1 = -0.8 on the five-word input. *)
Theorem C7_repetition_penalty_against_tests :
  forallb id (TestRepetitionPenaltyReward get_repetition_penalty_by_coverage) = true ∧
  rewards_of get_repetition_penalty_by_coverage 2 (-1 # 1)
    ["this this this this this"] = Some [-4 # 5] ∧
  (∀ ngram_size max_penalty c,
     (length (split (lower (content c))) < ngram_size)%nat →
     repetition_penalty_by_coverage ngram_size max_penalty c = 0) ∧
  (∀ ngram_size max_penalty c,
     repetition_penalty_by_coverage ngram_size max_penalty
       (Build_completion (lower (content c)))
     = repetition_penalty_by_coverage ngram_size max_penalty c) ∧
  (∀ ngram_size max_penalty c,
     let words := split (lower (content c)) in
     (ngram_size ≤ length words)%nat →
     ∃ covered : list nat,
       NoDup covered ∧
       (∀ i, i ∈ covered ↔ in_repeated_ngram ngram_size words i) ∧
       repetition_penalty_by_coverage ngram_size max_penalty c =
         inject_Z (Z.of_nat (length covered)) / inject_Z (Z.of_nat (length words))
         * max_penalty).
Proof.
  split; [vm_compute; reflexivity|]. split; [vm_compute; reflexivity|].
  split; [apply repetition_penalty_by_coverage_short|].
  split; [apply repetition_penalty_by_coverage_lower|].
  intros ngram_size max_penalty c words Hlong.
  exists (remove_dups (repeated_positions ngram_size 0 []
                         (zipngram ngram_size words))).
  split; [apply NoDup_remove_dups|]. split.
  - intros i. rewrite elem_of_remove_dups. apply repeated_positions_covered.
  - unfold repetition_penalty_by_coverage. fold words.
    rewrite decide_False by lia. done.
Qed.

(** C7 (as stated) fails against the tests it cites: the rule of the
    claim gives (1 - 1/4) * -1 = -3/4 on the five-word input, where
    [test_full_repetition] asserts -0.8, and -1/3 where
    [test_partial_repetition] asserts -0.4285714 to four places: it fails
    both assertions, and whatever scorer passes [test_full_repetition]
    returns -4/5 on that input, not -3/4. *)
Lemma C7_counterexample :
  rewards_of get_repetition_penalty_reward 2 (-1 # 1)
    ["this this this this this"] = Some [-3 # 4] ∧
  test_full_repetition get_repetition_penalty_reward = false ∧
  (∀ factory, test_full_repetition factory = true →
     ∃ reward,
       rewards_of factory 2 (-1 # 1) ["this this this this this"] = Some [reward] ∧
       reward == -4 # 5 ∧ ¬ reward == -3 # 4) ∧
  rewards_of get_repetition_penalty_reward 2 (-1 # 1)
    ["this is a this is a test"] = Some [-2 # 6] ∧
  test_partial_repetition get_repetition_penalty_reward = false.
Proof.
  split; [vm_compute; reflexivity|]. split; [vm_compute; reflexivity|]. split.
  { intros factory. unfold test_full_repetition.
    destruct (rewards_of factory 2 (-1 # 1) _) as [rewards|]; [|done].
    intros (reward & -> & Heq)%assertEqual_singleton.
    exists reward. split; [done|]. rewrite Heq. split; [reflexivity|]. discriminate. }
  split; vm_compute; reflexivity.
Qed.

(** C8. Building the scorer with [max_penalty >= 0] raises a
    [ValueError] whose text names the value, and no scorer exists; with
    [max_penalty < 0] the scorer is returned. The model passes
    [test_positive_max_penalty_raises_value_error]. *)
Theorem C8_eager_misconfiguration_rejection ngram_size max_penalty :
  (0 <= max_penalty →
   get_repetition_penalty_reward ngram_size max_penalty =
     Raise (Exn "ValueError"
              ("max_penalty " +:+ float_repr max_penalty +:+ " should not be positive"))) ∧
  (max_penalty < 0 →
   get_repetition_penalty_reward ngram_size max_penalty =
     Ok (map (repetition_penalty ngram_size max_penalty))) ∧
  test_positive_max_penalty_raises_value_error get_repetition_penalty_reward = true.
Proof.
  unfold get_repetition_penalty_reward. repeat split.
  - intros Hle. apply Qle_bool_iff in Hle. by rewrite Hle.
  - intros Hlt. destruct (Qle_bool 0 max_penalty) eqn:Hle; [|done].
    apply Qle_bool_iff in Hle. lra.
Qed.

Lemma third n : inject_Z (Z.of_nat n) / 3 == Z.of_nat n # 3.
Proof. unfold Qeq, Qdiv, Qmult, Qinv. simpl. lia. Qed.

Lemma steps_score n :
  (n = 0%nat → Qmin 1 (inject_Z (Z.of_nat n) / 3) == 0) ∧
  (n = 1%nat → Qmin 1 (inject_Z (Z.of_nat n) / 3) == 1 # 3) ∧
  (n = 2%nat → Qmin 1 (inject_Z (Z.of_nat n) / 3) == 2 # 3) ∧
  ((3 ≤ n)%nat → Qmin 1 (inject_Z (Z.of_nat n) / 3) == 1).
Proof.
  repeat split.
  - intros ->. reflexivity.
  - intros ->. reflexivity.
  - intros ->. reflexivity.
  - intros Hn. apply Q.min_l. rewrite third. unfold Qle. simpl. lia.
Qed.

(** C9. For any fixed step-detection rule, [reasoning_steps_reward]
    returns one reward per completion, equal to the smaller of 1 and the
    number of detected steps over 3: 0 for none, 1/3 for one step, 2/3
    for two, 1 for three or more. *)
Theorem C9_reasoning_steps_formula (count_steps : string → nat) completions :
  length (reasoning_steps_reward count_steps completions) = length completions ∧
  ∀ i c, completions !! i = Some c →
    ∃ reward,
      reasoning_steps_reward count_steps completions !! i = Some reward ∧
      reward == Qmin 1 (inject_Z (Z.of_nat (count_steps (content c))) / 3) ∧
      (count_steps (content c) = 0%nat → reward == 0) ∧
      (count_steps (content c) = 1%nat → reward == 1 # 3) ∧
      (count_steps (content c) = 2%nat → reward == 2 # 3) ∧
      ((3 ≤ count_steps (content c))%nat → reward == 1).
Proof.
  unfold reasoning_steps_reward. split; [apply length_map|].
  intros i c Hc. eexists. split.
  - change (map ?f ?l) with (f <$> l). rewrite list_lookup_fmap, Hc. reflexivity.
  - split; [reflexivity|]. apply steps_score.
Qed.

(** The model with the markers of the test inputs passes
    [test_reasoning_steps_reward]. *)
Lemma reasoning_steps_reward_passes_test :
  test_reasoning_steps_reward (reasoning_steps_reward count_test_markers) = true.
Proof. vm_compute. reflexivity. Qed.
End RewardFacts.

Lemma C7_witness :
  Rewards.repetition_penalty_by_coverage 3 (-1 # 1)
    (Rewards.Build_completion "two words") = 0%Q.
Proof.
  refine (proj1 (proj2 (proj2 C7_repetition_penalty_against_tests)) 3%nat _ _ _).
  vm_compute. lia.
Defined.

Lemma C8_witness :
  Rewards.get_repetition_penalty_reward 2 (3 # 2) =
    Raise (Exn "ValueError" "max_penalty 1.5 should not be positive").
Proof.
  refine (proj1 (C8_eager_misconfiguration_rejection 2 (3 # 2)) _).
  unfold Qle. simpl. lia.
Defined.

Lemma C9_witness :
  ∃ reward,
    Rewards.reasoning_steps_reward Rewards.count_test_markers
      [Rewards.Build_completion "Step 1: Only step"] !! 0%nat = Some reward ∧
    (reward == 1 # 3)%Q.
Proof.
  destruct (proj2 (C9_reasoning_steps_formula Rewards.count_test_markers
                     [Rewards.Build_completion "Step 1: Only step"])
                  0%nat _ eq_refl)
    as (reward & Hlook & _ & _ & Hone & _).
  exists reward. split; [exact Hlook|]. apply Hone. vm_compute. reflexivity.
Defined.


(** * Further facts *)

(** ** The retrying request executor, for every behaviour of the server *)

Section ExecutorOutcome.
Import Executor Measure.
Variables (a : args) (msgs : value) (env : nat → attempt).

Lemma retry_loop_outcome : ∀ budget i,
  ∃ k, (k ≤ budget)%nat ∧
    (∀ j, (j < k)%nat → is_Some (raised (reply (env (i + j))))) ∧
    ((k = budget ∧
      retry_loop a msgs env budget i =
        (VNone, flat_map (failed_attempt a msgs env) (seq i k))) ∨
     (k < budget)%nat ∧ ∃ status body,
      reply (env (i + k)) = BodyJson status body ∧
      retry_loop a msgs env budget i =
        (body, flat_map (failed_attempt a msgs env) (seq i k) ++
               [Sleep (jitter (env (i + k))); Post (make_request a msgs)])).
Proof.
  induction budget as [|budget IH]; intros i.
  - exists 0%nat. split; [lia|]. split; [intros j Hj; lia|]. by left.
  - destruct (raised (reply (env i))) as [e|] eqn:Hraised.
    + destruct (IH (S i)) as (k & Hk & Hfail & Hout).
      exists (S k). split; [lia|]. split.
      { intros [|j] Hj; [rewrite Nat.add_0_r; by rewrite Hraised|].
        replace (i + S j)%nat with (S i + j)%nat by lia. apply Hfail. lia. }
      replace (i + S k)%nat with (S i + k)%nat by lia.
      cbn [seq flat_map]. rewrite (failed_attempt_raised a msgs env i e Hraised).
      cbn [retry_loop].
      destruct Hout as [[-> Heq]|(Hlt & status & body & Hreply & Heq)].
      * left. split; [done|]. rewrite Heq.
        destruct (reply (env i)); simpl in Hraised; try discriminate;
          injection Hraised as ->; reflexivity.
      * right. split; [lia|]. exists status, body. split; [done|]. rewrite Heq.
        destruct (reply (env i)); simpl in Hraised; try discriminate;
          injection Hraised as ->; cbn [app]; reflexivity.
    + exists 0%nat. split; [lia|]. split; [intros j Hj; lia|].
      right. split; [lia|]. rewrite Nat.add_0_r.
      destruct (reply (env i)) as [e|st e|status body] eqn:Hreply;
        try discriminate.
      exists status, body. split; [done|]. cbn [retry_loop]. by rewrite Hreply.
Qed.

(** X1. Whatever the server does, [generate_completion_from_messages] ends
    in one of two ways: after [k < 10] raising exchanges the exchange
    number [k] returns a body, which is the result, and the trace ends with
    that post; or ten exchanges raise and the result is [None]. So a result
    other than [None] is always a body that was received, and a post is
    made at most ten times. *)
Theorem generate_completion_outcome :
  ∃ k, (k ≤ 10)%nat ∧
    (∀ i, (i < k)%nat → is_Some (raised (reply (env i)))) ∧
    length (filter is_Post (snd (generate_completion_from_messages a msgs env)))
      = Nat.min 10 (S k) ∧
    ((k = 10%nat ∧
      generate_completion_from_messages a msgs env =
        (VNone, flat_map (failed_attempt a msgs env) (seq 0 10))) ∨
     ((k < 10)%nat ∧ ∃ status,
      reply (env k) = BodyJson status (fst (generate_completion_from_messages a msgs env)) ∧
      snd (generate_completion_from_messages a msgs env) =
        flat_map (failed_attempt a msgs env) (seq 0 k) ++
        [Sleep (jitter (env k)); Post (make_request a msgs)])).
Proof.
  unfold generate_completion_from_messages.
  destruct (retry_loop_outcome 10 0) as (k & Hk & Hfail & Hout).
  exists k. split; [done|]. split; [exact Hfail|].
  destruct Hout as [[-> Heq]|(Hlt & status & body & Hreply & Heq)]; rewrite Heq;
    cbn [fst snd].
  - split; [by rewrite failed_attempts_posts|]. by left.
  - split.
    + rewrite filter_app, length_app, failed_attempts_posts by done.
      rewrite Nat.min_r by lia. cbn. rewrite decide_False, decide_True by tauto.
      simpl. lia.
    + right. split; [done|]. by exists status.
Qed.
End ExecutorOutcome.

Section ExecutorTiming.
Import Executor Measure.
Local Open Scope Q_scope.
Variables (a : args) (msgs : value) (env : nat → attempt).
Hypothesis draws : ∀ i, 0 <= rnd (env i) ∧ rnd (env i) < 1.

Lemma sleep_total_app tr1 tr2 :
  sleep_total (tr1 ++ tr2) == sleep_total tr1 + sleep_total tr2.
Proof.
  induction tr1 as [|[seconds|r|text] tr1 IH]; simpl; rewrite ?IH; ring.
Qed.

Lemma sleep_total_failed_attempt i :
  0 <= sleep_total (failed_attempt a msgs env i) ∧
  sleep_total (failed_attempt a msgs env i) <= 101 # 10.
Proof.
  destruct (jitter_range env i) as [Hlo Hhi]; [apply draws..|].
  unfold failed_attempt. destruct (raised (reply (env i))); simpl; split; lra.
Qed.

Lemma sleep_total_failed_attempts k : ∀ i,
  0 <= sleep_total (flat_map (failed_attempt a msgs env) (seq i k)) ∧
  sleep_total (flat_map (failed_attempt a msgs env) (seq i k))
    <= inject_Z (Z.of_nat k) * (101 # 10).
Proof.
  induction k as [|k IH]; intros i.
  - split; vm_compute; discriminate.
  - cbn [seq flat_map]. rewrite sleep_total_app.
    destruct (sleep_total_failed_attempt i) as [Hlo Hhi].
    destruct (IH (S i)) as [IHlo IHhi].
    rewrite Nat2Z.inj_succ. unfold Z.succ. rewrite inject_Z_plus.
    change (inject_Z 1) with 1.
    generalize dependent (inject_Z (Z.of_nat k)). intros x _ IHhi.
    split; lra.
Qed.

(** X2. With the draws of the random generator in [0, 1), one call of
    [generate_completion_from_messages] spends at most 101 seconds asleep
    (ten jitters of at most 0.1 s and ten backoffs of 10 s), whatever the
    server does. *)
Theorem generate_completion_sleeps_at_most_101s :
  0 <= sleep_total (snd (generate_completion_from_messages a msgs env)) ∧
  sleep_total (snd (generate_completion_from_messages a msgs env)) <= 101.
Proof.
  unfold generate_completion_from_messages.
  destruct (retry_loop_outcome a msgs env 10 0)
    as (k & Hk & _ & [[-> Heq]|(Hlt & status & body & _ & Heq)]);
    cbn [Nat.add] in Heq; rewrite Heq; cbn [snd].
  - destruct (sleep_total_failed_attempts 10 0) as [Hlo Hhi].
    split; [done|]. eapply Qle_trans; [exact Hhi|]. vm_compute. discriminate.
  - rewrite sleep_total_app.
    destruct (sleep_total_failed_attempts k 0) as [Hlo Hhi].
    destruct (jitter_range env k) as [Hjlo Hjhi]; [apply draws..|].
    assert (Hk9 : inject_Z (Z.of_nat k) <= 9).
    { change 9 with (inject_Z 9). rewrite <- Zle_Qle. lia. }
    cbn [sleep_total].
    generalize dependent (inject_Z (Z.of_nat k)). intros x Hhi Hx.
    split; lra.
Qed.
End ExecutorTiming.

Lemma generate_completion_sleeps_at_most_101s_witness :
  (Measure.sleep_total
     (snd (Executor.generate_completion_from_messages
             Samples.server Samples.hello Samples.env_down)) <= 101)%Q.
Proof.
  refine (proj2 (generate_completion_sleeps_at_most_101s
                   Samples.server Samples.hello Samples.env_down _)).
  intros i. split; [discriminate | reflexivity].
Defined.

(** ** Per-item processing: the record and the error paths *)

Section ItemMore.
Import Store Item.
Context {builtins : Builtins}.
Variables (a : args) (example : dict) (agents : string → nat → agent_run).
Variable file : list line.

Lemma map_const_replicate {A B} (x : B) (l : list A) :
  map (λ _, x) l = replicate (length l) x.
Proof. induction l as [|y l IH]; simpl; [done|]. by rewrite IH. Qed.

Lemma gather_one_raises (g : nat → agent_run) (l : list nat) i e :
  i ∈ l → g i = AgentInitRaises e →
  ∃ e', gather (map (λ i, get_agent_run (g i)) l) = Raise e'.
Proof.
  induction l as [|j l IH]; intros Hin Hraise; [by apply elem_of_nil in Hin|].
  cbn [map gather]. destruct (get_agent_run (g j)) as [v|e'] eqn:Hj; [|by eexists].
  apply elem_of_cons in Hin as [->|Hin].
  - rewrite Hraise in Hj. discriminate.
  - destruct (IH Hin Hraise) as [e' ->]. by eexists.
Qed.

Lemma process_example_returns r file' :
  process_example a example agents file = (Ok (Some r), file') →
  ∃ generations,
    length generations = Z.to_nat (num_generations a) ∧
    existsb is_None generations = false ∧
    r = make_result example generations ∧
    file' = file ++ [Parsed (VDict r)].
Proof.
  unfold process_example.
  destruct (subscript _ _); [|done].
  destruct (gather _) as [vs|] eqn:Hg; [|done].
  destruct (existsb _ _) eqn:Hnone; [done|]. intros [= <- <-].
  exists vs. apply gather_length in Hg. rewrite length_map, length_seq in Hg. done.
Qed.

(** X3. When [process_example] returns a result, that result is the one
    record it appended; the record holds [num_generations] generations,
    none of them [None], a [finish_reasons] and an [api_metadata] list of
    as many [None], and every field of the example under another name,
    unchanged. *)
Theorem process_example_record r file' :
  process_example a example agents file = (Ok (Some r), file') →
  let N := Z.to_nat (num_generations a) in
  file' = file ++ [Parsed (VDict r)] ∧
  (∃ generations,
     dict_get r "generations" = Some (VList generations) ∧
     length generations = N ∧ existsb is_None generations = false) ∧
  dict_get r "finish_reasons" = Some (VList (replicate N VNone)) ∧
  dict_get r "api_metadata" = Some (VList (replicate N VNone)) ∧
  (∀ k, k ∉ ["generations"; "finish_reasons"; "api_metadata"] →
        dict_get r k = dict_get example k).
Proof.
  intros (generations & Hlen & Hnone & -> & ->)%process_example_returns N.
  unfold make_result. rewrite !map_const_replicate, Hlen. fold N.
  split; [done|]. split; [|split; [|split]].
  - exists generations. split; [|done].
    rewrite !dict_get_set_ne by done. by rewrite dict_get_set_eq.
  - rewrite dict_get_set_ne by done. by rewrite dict_get_set_eq.
  - by rewrite dict_get_set_eq.
  - intros k Hk. rewrite !dict_get_set_ne; [done|intros <-; apply Hk..]; set_solver.
Qed.

(** X4. [process_example] raises only when the example has no prompt
    column, and then it raises [KeyError] and leaves the file; whatever the
    agent framework does, also when building the agent raises in one of the
    runs, it returns [None] and leaves the file. *)
Theorem process_example_error_paths :
  (dict_get example (prompt_column a) = None →
   process_example a example agents file =
     (Raise (Exn "KeyError" (prompt_column a)), file)) ∧
  (∀ e, fst (process_example a example agents file) = Raise e →
        dict_get example (prompt_column a) = None) ∧
  (∀ task i e,
     dict_get example (prompt_column a) = Some task →
     (i < Z.to_nat (num_generations a))%nat →
     agents (make_prompt task) i = AgentInitRaises e →
     process_example a example agents file = (Ok None, file)).
Proof.
  unfold process_example. simpl. split; [|split].
  - by intros ->.
  - intros e. destruct (dict_get example (prompt_column a)); [|done].
    destruct (gather _); [|done]. by destruct (existsb _ _).
  - intros task i e -> Hi Hraise.
    destruct (gather_one_raises (agents (make_prompt task))
                (seq 0 (Z.to_nat (num_generations a))) i e) as [e' ->];
      [apply elem_of_seq; lia|done|done].
Qed.

(** X5. With a fan-out of zero or less no agent is run: an example that has
    the prompt column is persisted at once, with three empty lists. *)
Theorem process_example_without_generations task :
  (num_generations a ≤ 0)%Z →
  dict_get example (prompt_column a) = Some task →
  process_example a example agents file =
    (Ok (Some (make_result example [])),
     file ++ [Parsed (VDict (make_result example []))]) ∧
  dict_get (make_result example []) "generations" = Some (VList []).
Proof.
  intros HN Htask. unfold process_example. simpl. rewrite Htask.
  replace (Z.to_nat (num_generations a)) with 0%nat by lia. split; [done|].
  unfold make_result. rewrite !dict_get_set_ne by done. by rewrite dict_get_set_eq.
Qed.
End ItemMore.

Lemma process_example_record_witness :
  dict_get
    (Item.make_result (Samples.item "A")
       [Item.payload (Samples.agents_ok
          (@Item.make_prompt Samples.plain (VStr "solve A")) 0)])
    "finish_reasons" = Some (VList [VNone]).
Proof.
  refine (proj1 (proj2 (proj2
    (@process_example_record Samples.plain (Samples.cli 1 2) (Samples.item "A")
       Samples.agents_ok [] _ _ _)))).
  reflexivity.
Defined.

Lemma process_example_without_generations_witness :
  @Item.process_example Samples.plain (Samples.cli 0 2) (Samples.item "A")
    Samples.agents_second_fails [] =
    (Ok (Some (Item.make_result (Samples.item "A") [])),
     [Store.Parsed (VDict (Item.make_result (Samples.item "A") []))]).
Proof.
  refine (proj1 (@process_example_without_generations Samples.plain
                   (Samples.cli 0 2) (Samples.item "A")
                   Samples.agents_second_fails [] (VStr "solve A") _ _)).
  - simpl. lia.
  - reflexivity.
Defined.

(** ** The startup scan: growth, order, first error, rerun *)

Section StoreMore.
Import Store Item Runner.
Context {builtins : Builtins}.

Lemma scan_app k l1 : ∀ l2 acc,
  scan k (l1 ++ l2) acc =
    match scan k l1 acc with
    | Ok processed => scan k l2 processed
    | Raise e => Raise e
    end.
Proof.
  induction l1 as [|l l1 IH]; intros l2 acc; [done|].
  cbn [app scan]. destruct (line_uuid k l) as [u|e]; [apply IH|].
  destruct (is_JSONDecodeError e); [apply IH|done].
Qed.

(** X6. The startup set only grows with the file: if a file scans, so
    does each of its initial parts, and what the part yields is contained in
    what the whole yields. *)
Theorem load_processed_uuids_grows uuid_column l1 l2 processed :
  load_processed_uuids (Some (l1 ++ l2)) uuid_column = Ok processed →
  ∃ earlier,
    load_processed_uuids (Some l1) uuid_column = Ok earlier ∧
    earlier ⊆ processed ∧
    scan uuid_column l2 earlier = Ok processed.
Proof.
  simpl. rewrite scan_app.
  destruct (scan uuid_column l1 ∅) as [earlier|e] eqn:H1; [|done].
  intros H2. exists earlier. split; [done|]. split; [|done].
  apply scan_returns in H2. set_solver.
Qed.

(** X7. The startup set does not depend on the order of the lines: a file
    whose lines are those of a file that scans, in another order, scans to
    the same set. *)
Theorem load_processed_uuids_order uuid_column l l' processed :
  l ≡ₚ l' →
  load_processed_uuids (Some l) uuid_column = Ok processed →
  load_processed_uuids (Some l') uuid_column = Ok processed.
Proof.
  intros Hperm Hload. simpl in *.
  pose proof (scan_returns_good _ _ _ _ Hload) as Hgood.
  rewrite scan_keys.
  2:{ intros ln e Hin. apply Hgood. by rewrite Hperm. }
  f_equal. apply scan_returns in Hload. subst processed.
  apply set_eq. intros x.
  rewrite !elem_of_union, !elem_of_list_to_set, !list_elem_of_fmap.
  unfold store_keys.
  split; (intros [(v & -> & Hv)|Hx]; [left|by right]); exists v; (split; [done|]);
    apply list_elem_of_omap in Hv as (ln & Hln & Hkey);
    apply list_elem_of_omap; exists ln; (split; [|done]).
  - by rewrite Hperm.
  - by rewrite <- Hperm.
Qed.


Lemma torn_write d record : torn (write d record) = None.
Proof. unfold write. by destruct (torn d) as [[alone glued]|]. Qed.

Lemma read_write d record :
  torn d = None → read (write d record) = read d ++ [Parsed record].
Proof. unfold read, write. intros ->. simpl. by rewrite !app_nil_r. Qed.

Lemma read_writes records : ∀ d,
  torn d = None →
  read (foldl write d records) = read d ++ (Parsed <$> records).
Proof.
  induction records as [|r records IH]; intros d Hd; simpl.
  - by rewrite app_nil_r.
  - rewrite IH by apply torn_write. rewrite read_write by done.
    by rewrite <- app_assoc.
Qed.

Lemma read_writes_torn d alone glued record rest :
  torn d = Some (alone, glued) →
  read (foldl write d (record :: rest)) =
    whole d ++ glued record :: (Parsed <$> rest).
Proof.
  intros Hd. simpl. rewrite read_writes by apply torn_write.
  unfold read, write. rewrite Hd. simpl. by rewrite app_nil_r, <- app_assoc.
Qed.

Lemma process_example_wrote (a : args) example agents file record :
  fst (process_example a example agents file) = Ok (Some record) →
  (∃ generations, record = make_result example generations) ∧
  snd (process_example a example agents file) = file ++ [Parsed (VDict record)].
Proof.
  unfold process_example. destruct (subscript _ _); [|done].
  destruct (gather _) as [vs|]; [|done].
  destruct (existsb _ _); [done|]. simpl. intros [= <-]. split; [|done].
  by exists vs.
Qed.

(** X9. A record written behind a file that ends with a newline (or is
    empty) is recognised by the next startup scan: when the uuid column is
    not one of the three fields the record adds, the file then holds the
    record on a line of its own, whatever is written after it the scan, if
    it returns, yields a set with the example's digest, and [main] started
    with that set passes over the example without creating a task. *)
Theorem written_record_is_skipped (a : args) example agents d record later
    key processed rest s :
  uuid_column a ∉ ["generations"; "finish_reasons"; "api_metadata"] →
  torn d = None →
  dict_get example (uuid_column a) = Some key →
  fst (process_example a example agents (read d)) = Ok (Some record) →
  load_processed_uuids
    (Some (read (foldl write (write d (VDict record)) later))) (uuid_column a)
    = Ok processed →
  pc s = ForLoop (example :: rest) →
  processed_uuids s = processed →
  snd (process_example a example agents (read d)) = read (write d (VDict record)) ∧
  uuid_of key ∈ processed ∧
  main_step a s = Some (with_pc (ForLoop rest) s).
Proof.
  intros Hcol Hd Hkey Hret Hload Hpc Hproc.
  destruct (process_example_wrote _ _ _ _ _ Hret) as [[generations ->] Hfile].
  split; [by rewrite read_write|].
  assert (Hdigest : uuid_of key ∈ processed).
  { apply load_returns in Hload. rewrite Hload. simpl.
    apply elem_of_list_to_set, list_elem_of_fmap. exists key. split; [done|].
    apply list_elem_of_omap.
    exists (Parsed (VDict (make_result example generations))). split.
    - rewrite read_writes by apply torn_write. rewrite read_write by done.
      apply elem_of_app. left. apply elem_of_app. right. by left.
    - by rewrite (key_of_result a example generations Hcol). }
  split; [done|].
  unfold main_step. rewrite Hpc. simpl. rewrite Hkey, Hproc.
  by rewrite decide_True.
Qed.
End StoreMore.

Lemma load_processed_uuids_grows_witness :
  ∃ earlier,
    @Store.load_processed_uuids Samples.plain
      (Some [Store.Parsed (VDict (Samples.item "A"))]) "uuid" = Ok earlier ∧
    earlier ⊆ list_to_set ["A"; "C"] ∧
    @Store.scan Samples.plain "uuid"
      [Store.Unparsable "{"; Store.Parsed (VDict (Samples.item "C"))] earlier
      = Ok (list_to_set ["A"; "C"]).
Proof.
  apply (@load_processed_uuids_grows Samples.plain "uuid"
           [Store.Parsed (VDict (Samples.item "A"))]
           [Store.Unparsable "{"; Store.Parsed (VDict (Samples.item "C"))]).
  vm_compute. reflexivity.
Defined.

Lemma load_processed_uuids_order_witness :
  @Store.load_processed_uuids Samples.plain
    (Some [Store.Unparsable "{"; Store.Parsed (VDict (Samples.item "C"));
           Store.Parsed (VDict (Samples.item "A"))]) "uuid"
  = Ok (list_to_set ["A"; "C"]).
Proof.
  apply (@load_processed_uuids_order Samples.plain "uuid"
           Samples.file_with_torn_line).
  - apply (Permutation_cons_append
             [Store.Unparsable "{"; Store.Parsed (VDict (Samples.item "C"))]).
  - vm_compute. reflexivity.
Defined.


Lemma written_record_is_skipped_witness :
  @Runner.main_step Samples.plain (Samples.cli 0 2) MoreSamples.rerun_on_A =
    Some (Runner.with_pc (Runner.ForLoop [Samples.item "B"]) MoreSamples.rerun_on_A).
Proof.
  refine (proj2 (proj2 (@written_record_is_skipped Samples.plain (Samples.cli 0 2)
                   (Samples.item "A") MoreSamples.quiet
                   {| Store.whole := []; Store.torn := None |}
                   (Item.make_result (Samples.item "A") []) []
                   (VStr "A") (list_to_set ["A"]) [Samples.item "B"]
                   MoreSamples.rerun_on_A _ _ _ _ _ _ _))).
  - simpl. intros Hin.
    repeat (apply elem_of_cons in Hin as [Hin|Hin]; [discriminate|]).
    by apply elem_of_nil in Hin.
  - reflexivity.
  - reflexivity.
  - reflexivity.
  - vm_compute. reflexivity.
  - vm_compute. reflexivity.
  - vm_compute. reflexivity.
Defined.

(** ** The scheduling loop: what a run does to the file and to the tasks *)

Section RunnerMore.
Import Store Item Runner Measure.
Context {builtins : Builtins}.
Variable a : args.

Lemma step_output_file l s s' :
  step a l s = Some s' →
  output_file s' = output_file s ∨
  ∃ t agents r, l = Finish t agents ∧ output_file s' = output_file s ++ [r].
Proof.
  intros Hstep. destruct l as [|t agents|t]; simpl in Hstep.
  - left. unfold main_step in Hstep.
    destruct (pc s) as [[|example rest]|example rest fs|fs| |e]; try discriminate.
    + by destruct (decide _); injection Hstep as <-.
    + destruct (subscript _ _); [|by injection Hstep as <-].
      destruct (decide _); injection Hstep as <-; [done|].
      unfold while_test. by repeat destruct (decide _).
    + destruct (decide _); [done|]. injection Hstep as <-.
      unfold while_test. by repeat destruct (decide _).
    + destruct (decide _); [|done]. by injection Hstep as <-.
  - unfold finish in Hstep. destruct (decide _); [|done].
    destruct (tasks s !! t) as [example|]; [|done]. injection Hstep as <-. simpl.
    destruct (process_example_appends a example agents (output_file s))
      as [->|(generations & _ & _ & ->)]; [by left|].
    right. by eexists t, agents, _.
  - left. unfold discard in Hstep. destruct (decide _); [done|].
    destruct (callbacks s !! t); [|done]. by injection Hstep as <-.
Qed.

(** X10. The output file is append-only: along every schedule of moves the
    file at the start is an initial part of the file at the end, and the
    file grows by at most one line per task that finishes. *)
Theorem output_file_append_only ls : ∀ s s',
  run a ls s = Some s' →
  output_file s `prefix_of` output_file s' ∧
  (length (output_file s') ≤ length (output_file s) + length (filter is_Finish ls))%nat.
Proof.
  induction ls as [|l ls IH]; intros s s'; simpl.
  - intros [= <-]. split; [done|lia].
  - destruct (step a l s) as [s1|] eqn:Hstep; [|done]. intros Hrun.
    destruct (IH _ _ Hrun) as [Hpre Hlen].
    destruct (step_output_file _ _ _ Hstep) as [Heq|(t & agents & r & -> & Heq)];
      rewrite Heq in *.
    + split; [done|]. rewrite filter_cons. destruct (decide _); simpl; lia.
    + split; [etrans; [by apply prefix_app_r|exact Hpre]|].
      rewrite filter_cons_True by done. rewrite length_app in Hlen. simpl in *. lia.
Qed.

Lemma step_tasks l s s' :
  step a l s = Some s' →
  tasks s' = tasks s ∨ ∃ example, tasks s' = tasks s ++ [example].
Proof.
  intros Hstep. destruct l as [|t agents|t]; simpl in Hstep.
  - unfold main_step in Hstep.
    destruct (pc s) as [[|example rest]|example rest fs|fs| |e]; try discriminate.
    + left. by destruct (decide _); injection Hstep as <-.
    + destruct (subscript _ _); [|left; by injection Hstep as <-].
      destruct (decide _); injection Hstep as <-; [by left|].
      unfold while_test. repeat destruct (decide _); simpl; eauto.
    + destruct (decide _); [done|]. injection Hstep as <-.
      unfold while_test. repeat destruct (decide _); simpl; eauto.
    + left. destruct (decide _); [|done]. by injection Hstep as <-.
  - left. unfold finish in Hstep. destruct (decide _); [|done].
    destruct (tasks s !! t); [|done]. by injection Hstep as <-.
  - left. unfold discard in Hstep. destruct (decide _); [done|].
    destruct (callbacks s !! t); [|done]. by injection Hstep as <-.
Qed.

Lemma NoDup_below (l : list nat) n :
  NoDup l → (∀ x, x ∈ l → (x < n)%nat) → (length l ≤ n)%nat.
Proof.
  intros Hnd Hlt. transitivity (length (seq 0 n)); [|by rewrite length_seq].
  apply submseteq_length. apply NoDup_submseteq; [done|]. intros x Hx. apply elem_of_seq.
  specialize (Hlt x Hx). lia.
Qed.

(** X11. A run writes at most one record per task it created, and creates
    at most one task per example of the input: in every reachable state the
    records added to the file plus the tasks still running are no more
    than the tasks created, which are no more than the examples. *)
Theorem one_record_per_task file dataset s :
  reachable a file dataset s →
  (length (output_file s) + size (running s)
     ≤ length (default [] file) + length (tasks s))%nat ∧
  (length (tasks s) ≤ length dataset)%nat.
Proof.
  intros Hreach.
  destruct (reachable_scheduled _ _ _ _ Hreach) as [_ Hsub _ _ _].
  destruct (reachable_persisted _ _ _ _ Hreach)
    as [Hids (ws & records & Hnd & Hdone & -> & Hrec)].
  split.
  - rewrite length_app, <- (Forall2_length _ _ _ Hrec).
    assert (length (ws ++ elements (running s)) ≤ length (tasks s))%nat as Hle.
    { apply NoDup_below.
      - apply NoDup_app. split; [done|]. split; [|apply NoDup_elements].
        intros t Hin Hrun%elem_of_elements. by apply (Hdone t).
      - intros t [Hin|Hin%elem_of_elements]%elem_of_app; [|by apply Hids].
        apply list_elem_of_lookup in Hin as [i Hi].
        destruct (Forall2_lookup_l _ _ _ _ _ Hrec Hi)
          as (r & _ & example & gens & Hlook & _).
        by apply lookup_lt_Some in Hlook. }
    rewrite length_app in Hle. unfold size, set_size. simpl in *. lia.
  - apply sublist_length in Hsub. rewrite length_app in Hsub. lia.
Qed.
End RunnerMore.

Lemma output_file_append_only_witness :
  [MoreSamples.record_A] `prefix_of` Runner.output_file
    (default MoreSamples.rerun_on_A
       (@Runner.run Samples.plain (Samples.cli 1 2)
          [Runner.Main; Runner.Main; Runner.Finish 0 Samples.agents_ok]
          MoreSamples.rerun_on_A)).
Proof.
  refine (proj1 (@output_file_append_only Samples.plain (Samples.cli 1 2)
                   [Runner.Main; Runner.Main; Runner.Finish 0 Samples.agents_ok]
                   MoreSamples.rerun_on_A _ _)).
  vm_compute. reflexivity.
Defined.

Lemma one_record_per_task_witness :
  (length (Runner.tasks Samples.twice) ≤ length Samples.input_AA)%nat.
Proof.
  refine (proj2 (@one_record_per_task Samples.plain (Samples.cli 1 1) None
                   Samples.input_AA Samples.twice _)).
  apply reachable_run_default.
Defined.

(** ** The scheduling loop: failures of [main] *)

Section RunnerFailures.
Import Store Item Runner.
Context {builtins : Builtins}.
Variable a : args.

(** X12. When the startup scan raises, [main] ends there: the state never
    changes, no task is created and the file is left as it was found. *)
Theorem scan_failure_stops_main file dataset e s :
  load_processed_uuids file (uuid_column a) = Raise e →
  reachable a file dataset s →
  s = start a file dataset ∧ pc s = Failed e ∧ tasks s = [] ∧
  output_file s = default [] file.
Proof.
  intros Hload Hreach.
  assert (Hs : s = start a file dataset).
  { induction Hreach as [|s l s' _ IH Hstep]; [done|]. subst s.
    unfold start in Hstep. rewrite Hload in Hstep.
    destruct l as [|t agents|t]; simpl in Hstep; [done| |].
    - unfold finish in Hstep. simpl in Hstep.
      by rewrite decide_False in Hstep by set_solver.
    - unfold discard in Hstep. simpl in Hstep.
      rewrite decide_False in Hstep by set_solver. done. }
  subst s. unfold start. by rewrite Hload.
Qed.






Lemma limit_no_task file dataset s :
  (max_concurrent a ≤ 0)%Z → reachable a file dataset s → tasks s = [].
Proof.
  intros HC. induction 1 as [|s l s' Hreach IH Hstep].
  - unfold start. by destruct (load_processed_uuids _ _).
  - destruct (step_tasks a l s s' Hstep) as [->|[example Hgrow]]; [done|].
    destruct (create_task_room a l s s') as [Hroom _];
      [by apply (reachable_bounded a file dataset)|done| |lia].
    rewrite Hgrow, length_app. simpl. lia.
Qed.

(** X15. With a limit of zero or less no task is ever created and the file
    is never written; [main] can reach its end only when every example of
    the input is already processed, and otherwise fails with [ValueError]
    at the first example that is not. *)
Theorem non_positive_limit_schedules_nothing file dataset s :
  (max_concurrent a ≤ 0)%Z →
  reachable a file dataset s →
  tasks s = [] ∧
  output_file s = default [] file ∧
  (pc s = Closed →
   filter (λ e, unprocessed a (processed_uuids s) e) dataset = []) ∧
  (∀ example rest,
     pc s = ForLoop (example :: rest) →
     unprocessed a (processed_uuids s) example →
     ∃ s', main_step a s = Some s' ∧
           pc s' = Failed (Exn "ValueError" "Set of Tasks/Futures is empty.")).
Proof.
  intros HC Hreach.
  pose proof (limit_no_task _ _ _ HC Hreach) as Hnone.
  destruct (reachable_scheduled _ _ _ _ Hreach) as [_ _ Hexact _ _].
  destruct (reachable_persisted _ _ _ _ Hreach)
    as [_ (ws & records & _ & _ & Hout & Hrec)].
  pose proof (reachable_bounded _ _ _ _ Hreach) as [Hsize _ _ _].
  split; [done|]. split; [|split].
  - destruct Hrec as [|t r ws records (example & gens & Hlook & _) _].
    + by rewrite Hout, app_nil_r.
    + by rewrite Hnone in Hlook.
  - intros Hpc. rewrite Hpc, Hnone in Hexact. simpl in Hexact. by rewrite <- Hexact.
  - intros example rest Hpc Hun.
    destruct (unprocessed_key _ _ _ Hun) as (key & Hkey & Hnew).
    unfold main_step. rewrite Hpc. simpl. rewrite Hkey.
    rewrite decide_False by done. eexists. split; [done|].
    unfold while_test. rewrite decide_True by lia.
    rewrite decide_True; [done|].
    apply leibniz_equiv, size_empty_inv. lia.
Qed.
End RunnerFailures.

Lemma scan_failure_stops_main_witness :
  Runner.pc (@Runner.start Samples.plain (Samples.cli 1 2)
               (Some Samples.file_with_foreign_line) Samples.input_ABC)
    = Runner.Failed (Exn "KeyError" "uuid").
Proof.
  refine (proj1 (proj2 (@scan_failure_stops_main Samples.plain (Samples.cli 1 2)
                          (Some Samples.file_with_foreign_line) Samples.input_ABC
                          (Exn "KeyError" "uuid") _ _ _))).
  - reflexivity.
  - apply Runner.reachable_start.
Defined.



Lemma non_positive_limit_schedules_nothing_witness :
  Runner.tasks MoreSamples.no_room = [] ∧
  Runner.output_file MoreSamples.no_room = [].
Proof.
  destruct (@non_positive_limit_schedules_nothing Samples.plain (Samples.cli 1 0)
              None [Samples.item "A"] MoreSamples.no_room) as (Ht & Ho & _).
  - simpl. lia.
  - apply reachable_run_default.
  - split; [exact Ht|exact Ho].
Defined.

(** ** The scheduling loop: the set after a wait, the file for the next run *)

Section RunnerResume.
Import Store Item Runner.
Context {builtins : Builtins}.
Variable a : args.

(** X16. When [asyncio.wait] returns, the set bound to [active_tasks] is
    exactly the set of the tasks still running, the new task included if
    one is created: tasks that finished while their callback pointed at an
    older set object are dropped at that moment. *)
Theorem wait_purges_finished file dataset s example rest fs s' :
  reachable a file dataset s →
  pc s = WaitFirst example rest fs →
  main_step a s = Some s' →
  current s' = running s'.
Proof.
  intros Hreach Hpc Hstep.
  destruct (reachable_bounded _ _ _ _ Hreach) as [_ _ _ Hwait].
  rewrite Hpc in Hwait. destruct Hwait as [Hsub _].
  unfold main_step in Hstep. rewrite Hpc in Hstep.
  destruct (decide _); [done|]. injection Hstep as <-.
  assert (Hcur : current (rebind (fs ∩ running s) s) = running s).
  { rewrite current_rebind. set_solver. }
  unfold while_test. destruct (decide _); [destruct (decide _)|].
  - by rewrite current_with_pc.
  - by rewrite current_with_pc.
  - rewrite current_create_task; [|simpl; rewrite length_app; simpl; lia].
    rewrite Hcur. done.
Qed.

Lemma dict_set_keeps_key d k k' v :
  is_Some (dict_get d k) → is_Some (dict_get (dict_set d k' v) k).
Proof.
  intros Hk. destruct (decide (k' = k)) as [->|Hne].
  - rewrite dict_get_set_eq. by eexists.
  - by rewrite dict_get_set_ne.
Qed.

Lemma records_are_parsed (P : line → value → Prop) (records : list line) :
  Forall (λ r, ∃ v, r = Parsed v ∧ P r v) records →
  ∃ vs, records = Parsed <$> vs ∧ Forall2 P records vs.
Proof.
  induction 1 as [|r records (v & -> & Hv) _ (vs & -> & IH)].
  - by exists [].
  - exists (v :: vs). split; [done|]. by constructor.
Qed.

(** X17. The file a run leaves can be scanned by the next run, when the
    file it started from ended with a newline or was empty: the output
    file is then, line for line, what was found followed by the records
    written, and if the startup scan succeeded the scan of it succeeds too
    and its set contains the startup set. When the file found had an
    unfinished last line, the next run reads the first record written
    glued to that line. *)
Theorem output_stays_scannable (file : option disk) dataset processed s :
  load_processed_uuids (read <$> file) (uuid_column a) = Ok processed →
  reachable a (read <$> file) dataset s →
  ∃ records,
    output_file s = read (on_disk file) ++ (Parsed <$> records) ∧
    (torn (on_disk file) = None →
     read (foldl write (on_disk file) records) = output_file s ∧
     ∃ later,
       load_processed_uuids
         (Some (read (foldl write (on_disk file) records))) (uuid_column a)
         = Ok later ∧
       processed ⊆ later) ∧
    (∀ alone glued record rest,
       torn (on_disk file) = Some (alone, glued) →
       records = record :: rest →
       read (foldl write (on_disk file) records) =
         whole (on_disk file) ++ glued record :: (Parsed <$> rest)).
Proof.
  intros Hload Hreach.
  destruct (reachable_scheduled _ _ _ _ Hreach) as [_ _ _ Hun _].
  destruct (reachable_persisted _ _ _ _ Hreach)
    as [_ (ws & records & _ & _ & Hout & Hrec)].
  assert (Hfound : default [] (read <$> file) = read (on_disk file)).
  { destruct file as [d|]; [done|]. unfold on_disk, read. simpl. done. }
  rewrite Hfound in Hout.
  destruct (records_are_parsed
              (λ r v, is_Some (key_of_line (uuid_column a) r)) records)
    as (vs & -> & Hkeys).
  { clear Hout. induction Hrec as [|t r ws records Hr _ IH]; constructor; [|done].
    destruct Hr as (example & gens & Hlook & _ & _ & ->).
    eexists. split; [done|].
    apply list_elem_of_lookup_2 in Hlook.
    destruct (unprocessed_key _ _ _ (Hun example Hlook)) as (key & Hkey & _).
    simpl. unfold make_result. do 3 apply dict_set_keeps_key. by eexists. }
  exists vs. split; [done|]. split.
  - intros Htorn. rewrite read_writes by done. split; [done|].
    rewrite <- Hout.
    assert (Hgood : ∀ l e, l ∈ output_file s →
              line_uuid (uuid_column a) l = Raise e →
              exn_class e = "JSONDecodeError").
    { intros l e. rewrite Hout. intros [Hin|Hin]%elem_of_app.
      - destruct file as [d|]; [|by apply elem_of_nil in Hin].
        by apply (scan_returns_good _ _ _ _ Hload).
      - apply list_elem_of_lookup in Hin as [i Hi].
        destruct (Forall2_lookup_l _ _ _ _ _ Hkeys Hi) as (v & _ & key & Hkey).
        destruct (line_uuid_cases (uuid_column a) l)
          as [(? & _ & ->)|(? & Hnone & _)]; [done|congruence]. }
    eexists. split; [simpl; by rewrite scan_keys|].
    apply load_returns in Hload. rewrite Hload, Hfound, Hout.
    unfold store_keys. rewrite omap_app, fmap_app, list_to_set_app_L. set_solver.
  - intros alone glued record rest Htorn ->. by apply (read_writes_torn _ alone).
Qed.
End RunnerResume.

Lemma wait_purges_finished_witness :
  ∃ s',
    @Runner.main_step Samples.plain (Samples.cli 1 1) MoreSamples.first_done
      = Some s' ∧
    Runner.current s' = Runner.running s'.
Proof.
  destruct (@Runner.main_step Samples.plain (Samples.cli 1 1) MoreSamples.first_done)
    as [s'|] eqn:Hstep; [|vm_compute in Hstep; discriminate].
  exists s'. split; [reflexivity|].
  refine (@wait_purges_finished Samples.plain (Samples.cli 1 1) None
            Samples.input_AA MoreSamples.first_done (Samples.item "A") [] {[0%nat]}
            s' _ _ Hstep).
  - apply reachable_run_default.
  - vm_compute. reflexivity.
Defined.

Lemma output_stays_scannable_witness :
  ∃ later,
    @Store.load_processed_uuids Samples.plain
      (Some (Runner.output_file Samples.resumed)) "uuid" = Ok later ∧
    list_to_set ["A"; "B"] ⊆ later.
Proof.
  destruct (@output_stays_scannable Samples.plain (Samples.cli 1 2)
              (Some MoreSamples.disk_AB) Samples.input_ABC
              (list_to_set ["A"; "B"]) Samples.resumed)
    as (records & _ & Hwhole & _).
  - vm_compute. reflexivity.
  - apply reachable_run_default.
  - destruct (Hwhole eq_refl) as (<- & later & Hlater & Hsub). by exists later.
Defined.

(** With an unfinished last line the startup set can be lost: the file
    holds the record of A without its newline, the run writes the record of
    B behind it, and the next scan finds one line that does not parse. *)
Lemma unfinished_line_is_lost :
  @Store.load_processed_uuids Samples.plain
    (Some (Store.read MoreSamples.unfinished_A)) "uuid" = Ok (list_to_set ["A"]) ∧
  @Store.load_processed_uuids Samples.plain
    (Some (Store.read
             (Store.write MoreSamples.unfinished_A
                (VDict (Item.make_result (Samples.item "B") []))))) "uuid" = Ok ∅.
Proof. split; vm_compute; reflexivity. Qed.

(** ** The scheduling loop can always be brought to its end *)

Section RunnerProgress.
Import Store Item Runner.
Context {builtins : Builtins}.
Variable a : args.

Lemma run_app ls1 ls2 s :
  run a (ls1 ++ ls2) s =
    match run a ls1 s with Some s1 => run a ls2 s1 | None => None end.
Proof.
  revert s. induction ls1 as [|l ls1 IH]; intros s; simpl; [done|].
  destruct (step a l s); [apply IH|done].
Qed.

(** Every running task can finish, one after the other. *)
Lemma drain n : ∀ s,
  size (running s) = n →
  (∀ t, t ∈ running s → (t < length (tasks s))%nat) →
  ∃ ls s', run a ls s = Some s' ∧ running s' = ∅ ∧ pc s' = pc s.
Proof.
  induction n as [|n IH]; intros s Hsize Hids.
  - exists [], s. split; [done|]. split; [|done].
    by apply leibniz_equiv, size_empty_inv.
  - destruct (size_pos_elem_of (running s)) as [t Ht]; [lia|].
    destruct (lookup_lt_is_Some_2 (tasks s) t (Hids t Ht)) as [example Hlook].
    assert (Hfin : ∃ s1, finish a t MoreSamples.quiet s = Some s1 ∧
              running s1 = running s ∖ {[t]} ∧ pc s1 = pc s ∧ tasks s1 = tasks s).
    { unfold finish. rewrite decide_True, Hlook by done. by eexists. }
    destruct Hfin as (s1 & Hfin & Hrun & Hpc & Htasks).
    destruct (IH s1) as (ls & s' & Hls & Hempty & Hpc').
    + rewrite Hrun, size_difference by set_solver. rewrite size_singleton. lia.
    + intros t' Hin. rewrite Htasks. apply Hids. set_solver.
    + exists (Finish t MoreSamples.quiet :: ls), s'. simpl. rewrite Hfin.
      split; [done|]. split; [done|]. by rewrite Hpc'.
Qed.

(** With nothing running, the loop test either fails, or suspends on a
    set of finished tasks, or creates the task, which can then finish. *)
Lemma settle_created example rest s0 :
  running s0 = ∅ →
  ∃ s', finish a (length (tasks s0)) MoreSamples.quiet (create_task example rest s0) = Some s' ∧
        pc s' = ForLoop rest ∧ running s' = ∅.
Proof.
  intros Hrun. unfold finish. simpl.
  rewrite decide_True by set_solver.
  rewrite lookup_app_r, Nat.sub_diag by lia. simpl.
  eexists. split; [done|]. split; [done|]. simpl. rewrite Hrun. set_solver.
Qed.

Lemma settle_while_test example rest s0 :
  running s0 = ∅ →
  ∃ ls s', run a ls (while_test a example rest s0) = Some s' ∧
    ((∃ e, pc s' = Failed e) ∨ (pc s' = ForLoop rest ∧ running s' = ∅)).
Proof.
  intros Hrun.
  assert (Hcreate : ∀ s1, running s1 = ∅ →
    ∃ ls s', run a ls (create_task example rest s1) = Some s' ∧
      ((∃ e, pc s' = Failed e) ∨ (pc s' = ForLoop rest ∧ running s' = ∅))).
  { intros s1 H1. destruct (settle_created example rest s1 H1) as (s' & Hfin & Hpc & Hr).
    exists [Finish (length (tasks s1)) MoreSamples.quiet], s'. simpl. rewrite Hfin.
    split; [done|]. by right. }
  unfold while_test at 1.
  destruct (decide _) as [Hfull|Hroom]; [destruct (decide (current s0 = ∅)) as [|Hne]|].
  - exists []. eexists. split; [reflexivity|]. left. by eexists.
  - set (s1 := with_pc (WaitFirst example rest (current s0)) s0).
    assert (Hmain : main_step a s1 =
              Some (while_test a example rest (rebind ∅ s1))).
    { unfold main_step. simpl. rewrite Hrun.
      rewrite decide_False by set_solver.
      by replace (current s0 ∩ ∅) with (∅ : gset nat) by set_solver. }
    assert (Hnext : ∃ ls s', run a ls (while_test a example rest (rebind ∅ s1)) = Some s' ∧
              ((∃ e, pc s' = Failed e) ∨ (pc s' = ForLoop rest ∧ running s' = ∅))).
    { unfold while_test. rewrite current_rebind.
      destruct (decide _); [rewrite decide_True by done|].
      - exists []. eexists. split; [reflexivity|]. left. by eexists.
      - by apply Hcreate. }
    destruct Hnext as (ls & s' & Hls & Hend).
    exists (Main :: ls), s'. simpl. rewrite Hmain. done.
  - by apply Hcreate.
Qed.

Lemma close_out rest : ∀ s,
  running s = ∅ → pc s = ForLoop rest →
  ∃ ls s', run a ls s = Some s' ∧ (pc s' = Closed ∨ ∃ e, pc s' = Failed e).
Proof.
  induction rest as [|example rest IH]; intros s Hrun Hpc.
  - destruct (decide (current s = ∅)) as [Hempty|Hne].
    + exists [Main], (with_pc Closed s). simpl. unfold main_step.
      rewrite Hpc, decide_True by done. split; [done|]. by left.
    + exists [Main; Main], (with_pc Closed (with_pc (GatherRest (current s)) s)).
      simpl. unfold main_step at 1. rewrite Hpc, decide_False by done.
      unfold main_step. simpl. rewrite Hrun, decide_True by set_solver.
      split; [done|]. by left.
  - assert (Hnext : ∃ s1, main_step a s = Some s1 ∧
      ((∃ e, pc s1 = Failed e) ∨ (pc s1 = ForLoop rest ∧ running s1 = ∅) ∨
       s1 = while_test a example rest s)).
    { unfold main_step. rewrite Hpc. destruct (subscript _ _) as [v|e].
      - destruct (decide _); eexists; (split; [done|]).
        + right. left. done.
        + right. by right.
      - eexists. split; [done|]. left. by eexists. }
    destruct Hnext as (s1 & Hmain & [Hfail|[[Hpc1 Hrun1]| ->]]).
    + exists [Main], s1. simpl. rewrite Hmain. split; [done|]. by right.
    + destruct (IH s1 Hrun1 Hpc1) as (ls & s' & Hls & Hend).
      exists (Main :: ls), s'. simpl. by rewrite Hmain.
    + destruct (settle_while_test example rest s Hrun) as (ls1 & s2 & Hls1 & Hend).
      destruct Hend as [Hfail|[Hpc2 Hrun2]].
      * exists (Main :: ls1), s2. simpl. rewrite Hmain. split; [done|]. by right.
      * destruct (IH s2 Hrun2 Hpc2) as (ls2 & s' & Hls2 & Hend).
        exists (Main :: ls1 ++ ls2), s'. simpl. rewrite Hmain, run_app, Hls1.
        done.
Qed.

Lemma waiting_on_something file dataset s example rest fs :
  reachable a file dataset s → pc s = WaitFirst example rest fs → fs ≠ ∅.
Proof.
  intros Hreach. revert example rest fs.
  assert (Hwt : ∀ e r s0 e' r' fs',
    pc (while_test a e r s0) = WaitFirst e' r' fs' → fs' ≠ ∅).
  { intros e r s0 e' r' fs'. unfold while_test.
    destruct (decide _); [destruct (decide _)|]; simpl; try done.
    by intros [= _ _ <-]. }
  induction Hreach as [|s l s' _ IH Hstep]; intros example rest fs Hpc.
  - unfold start in Hpc. by destruct (load_processed_uuids _ _).
  - destruct l as [|t agents|t]; simpl in Hstep.
    + unfold main_step in Hstep.
      destruct (pc s) as [[|ex r]|ex r fs0|fs0| |e0]; try discriminate.
      * destruct (decide _); injection Hstep as <-; discriminate.
      * destruct (subscript _ _); [|injection Hstep as <-; discriminate].
        destruct (decide _); injection Hstep as <-; [discriminate|].
        by apply (Hwt _ _ _ _ _ _ Hpc).
      * destruct (decide _); [done|]. injection Hstep as <-.
        by apply (Hwt _ _ _ _ _ _ Hpc).
      * destruct (decide _); [|done]. injection Hstep as <-. discriminate.
    + unfold finish in Hstep. destruct (decide _); [|done].
      destruct (tasks s !! t); [|done]. injection Hstep as <-.
      by apply (IH example rest).
    + unfold discard in Hstep. destruct (decide _); [done|].
      destruct (callbacks s !! t); [|done]. injection Hstep as <-.
      by apply (IH example rest).
Qed.

(** X18. The loop cannot get stuck: from every state a run can reach there
    is a schedule, letting the running tasks finish and [main] move, that
    brings [main] to its end or to a failure; the state it ends in is
    reachable. *)
Theorem run_can_be_completed file dataset s :
  reachable a file dataset s →
  ∃ ls s',
    run a ls s = Some s' ∧ reachable a file dataset s' ∧
    (pc s' = Closed ∨ ∃ e, pc s' = Failed e).
Proof.
  intros Hreach.
  destruct (reachable_persisted _ _ _ _ Hreach) as [Hids _].
  destruct (drain (size (running s)) s eq_refl Hids) as (ls0 & s0 & Hls0 & Hrun0 & Hpc0).
  assert (Hreach0 : reachable a file dataset s0) by by apply (reachable_run a file dataset ls0 s).
  assert (Hend : ∃ ls s', run a ls s0 = Some s' ∧ (pc s' = Closed ∨ ∃ e, pc s' = Failed e)).
  { destruct (pc s0) as [rest|example rest fs|fs| |e] eqn:Hpc.
    - by apply (close_out rest).
    - pose proof (waiting_on_something _ _ _ _ _ _ Hreach0 Hpc) as Hne.
      assert (Hmain : main_step a s0 = Some (while_test a example rest (rebind ∅ s0))).
      { unfold main_step. rewrite Hpc, Hrun0. rewrite decide_False by set_solver.
        by replace (fs ∩ ∅) with (∅ : gset nat) by set_solver. }
      destruct (settle_while_test example rest (rebind ∅ s0) Hrun0)
        as (ls1 & s1 & Hls1 & [Hfail|[Hpc1 Hrun1]]).
      + exists (Main :: ls1), s1. simpl. rewrite Hmain. split; [done|]. by right.
      + destruct (close_out rest s1 Hrun1 Hpc1) as (ls2 & s' & Hls2 & Hend).
        exists (Main :: ls1 ++ ls2), s'. simpl. rewrite Hmain, run_app, Hls1. done.
    - exists [Main], (with_pc Closed s0). simpl. unfold main_step.
      rewrite Hpc, Hrun0, decide_True by set_solver. split; [done|]. by left.
    - exists [], s0. split; [done|]. by left.
    - exists [], s0. split; [done|]. right. by eexists. }
  destruct Hend as (ls & s' & Hls & Hend).
  exists (ls0 ++ ls), s'. rewrite run_app, Hls0. split; [done|]. split; [|done].
  by apply (reachable_run a file dataset ls s0).
Qed.
End RunnerProgress.

Lemma run_can_be_completed_witness :
  ∃ ls s',
    @Runner.run Samples.plain (Samples.cli 1 1) ls Samples.waiting = Some s' ∧
    Runner.reachable (builtins := Samples.plain) (Samples.cli 1 1) None
      Samples.input_AA s' ∧
    (Runner.pc s' = Runner.Closed ∨ ∃ e, Runner.pc s' = Runner.Failed e).
Proof.
  apply (@run_can_be_completed Samples.plain (Samples.cli 1 1) None
           Samples.input_AA Samples.waiting).
  apply reachable_run_default.
Defined.


(** ** The total of the progress bar *)

Section ProgressTotal.
Import Store Item Runner Measure.
Context {builtins : Builtins}.
Variable a : args.

Lemma skipped_within processed (within : gset string) (dataset : list dict) :
  NoDup (omap (digest_of a) dataset) →
  (∀ example, example ∈ dataset → is_Some (dict_get example (uuid_column a))) →
  (∀ d, d ∈ omap (digest_of a) dataset → d ∈ processed → d ∈ within) →
  (length (filter (λ e, ¬ unprocessed a processed e) dataset) ≤ size within)%nat.
Proof.
  intros Hnd Hcols Hwithin.
  set (skipped := filter (λ e, ¬ unprocessed a processed e) dataset).
  assert (Hlen : length (omap (digest_of a) skipped) = length skipped).
  { assert (Hall : ∀ e, e ∈ skipped → is_Some (digest_of a e)).
    { intros e [_ Hin]%list_elem_of_filter. destruct (Hcols e Hin) as [v Hv].
      unfold digest_of. rewrite Hv. by eexists. }
    clearbody skipped. induction skipped as [|e l IH]; [done|].
    cbn [omap list_omap]. destruct (Hall e) as [d ->]; [by left|].
    cbn [length]. f_equal. apply IH. intros e' He'. apply Hall. by right. }
  rewrite <- Hlen. unfold size, set_size. simpl.
  apply submseteq_length, NoDup_submseteq.
  - apply (sublist_NoDup _ (omap (digest_of a) dataset)); [done|].
    apply sublist_omap, sublist_filter.
  - intros d (e & [Hskip Hin]%list_elem_of_filter & Hd)%list_elem_of_omap.
    apply elem_of_elements. apply Hwithin.
    { apply list_elem_of_omap. by exists e. }
    unfold digest_of in Hd. unfold unprocessed in Hskip.
    destruct (dict_get e (uuid_column a)) as [v|]; [|done].
    simpl in Hd. injection Hd as <-.
    destruct (decide (uuid_of v ∈ processed)) as [|Hnot]; [done|].
    destruct Hskip. by apply bool_decide_pack.
Qed.

(** X19. When the examples of the input all have the uuid column and
    pairwise distinct digests, the total shown by the progress bar is at
    most the number of examples that will be scheduled, and it is strictly
    smaller when the startup set holds a digest that no example of the
    input has. *)
Theorem pbar_total_at_most_scheduled processed (dataset : list dict) :
  NoDup (omap (digest_of a) dataset) →
  (∀ example, example ∈ dataset → is_Some (dict_get example (uuid_column a))) →
  (pbar_total processed dataset
     ≤ Z.of_nat (length (filter (λ e, unprocessed a processed e) dataset)))%Z ∧
  (∀ d, d ∈ processed → d ∉ omap (digest_of a) dataset →
     (pbar_total processed dataset
        < Z.of_nat (length (filter (λ e, unprocessed a processed e) dataset)))%Z).
Proof.
  intros Hnd Hcols.
  pose proof (filter_app_complement (λ e, unprocessed a processed e) dataset) as Hperm.
  apply Permutation_length in Hperm. rewrite length_app in Hperm.
  split.
  - pose proof (skipped_within processed processed dataset Hnd Hcols) as Hskip.
    unfold pbar_total. specialize (Hskip ltac:(done)). lia.
  - intros d Hin Hnot.
    pose proof (skipped_within processed (processed ∖ {[d]}) dataset Hnd Hcols)
      as Hskip.
    assert (Hless : (size (processed ∖ {[d]}) < size processed)%nat).
    { apply subset_size. set_solver. }
    unfold pbar_total.
    assert (Hwithin : ∀ d', d' ∈ omap (digest_of a) dataset → d' ∈ processed →
                            d' ∈ processed ∖ {[d]}).
    { intros d' Hd' Hp. apply elem_of_difference. split; [done|].
      intros ->%elem_of_singleton. done. }
    specialize (Hskip Hwithin). lia.
Qed.
End ProgressTotal.

Lemma pbar_total_at_most_scheduled_witness :
  (Measure.pbar_total (list_to_set ["A"; "B"; "Z"]) Samples.input_ABC
     < Z.of_nat (length (filter (λ e, @Runner.unprocessed Samples.plain (Samples.cli 1 2)
                                        (list_to_set ["A"; "B"; "Z"]) e)
                                Samples.input_ABC)))%Z.
Proof.
  refine (proj2 (@pbar_total_at_most_scheduled Samples.plain (Samples.cli 1 2)
                   (list_to_set ["A"; "B"; "Z"]) Samples.input_ABC _ _) "Z" _ _).
  - vm_compute. repeat (apply NoDup_cons; split);
      [| | |apply NoDup_nil; exact I]; intros Hin;
      repeat (apply elem_of_cons in Hin as [Hin|Hin]; [discriminate|]);
      by apply elem_of_nil in Hin.
  - intros example Hin. unfold Samples.input_ABC in Hin.
    repeat (apply elem_of_cons in Hin as [->|Hin]; [by eexists|]).
    by apply elem_of_nil in Hin.
  - set_solver.
  - vm_compute. intros Hin.
    repeat (apply elem_of_cons in Hin as [Hin|Hin]; [discriminate|]).
    by apply elem_of_nil in Hin.
Defined.
